(** * NumberSrapper frontend: push-channel client and job-state reconciliation

    A shallow embedding of
    - [frontend/src/App.js]: the [Home] component's message-handling effect
      (the reducer over [currentJob] / [jobResults]) and its two submission
      handlers;
    - [frontend/src/hooks/useWebSocket.js]: the [useWebSocket] hook with its
      reconnection logic.

    React state is modelled by explicit state passing: a component is a
    record of its [useState] cells and [useRef] cells, an event handler is a
    function from records to records.  JSON numbers are modelled by [Z]. *)

From stdpp Require Import base numbers list strings pretty sorting.

Open Scope Z_scope.
Open Scope string_scope.
Open Scope list_scope.

(* ===================================================================== *)
(** ** Data model                                                          *)
(* ===================================================================== *)

(** One scraped result, the [data] object of a [url_complete] message.
    [url] is [None] when the object has no [url] property ([r.url] is
    [undefined]); the remaining properties are kept as a property list. *)
Record Payload := mkPayload {
  url : option string;
  props : list (string * string)
}.

Global Instance Payload_eq_dec : EqDecision Payload.
Proof. solve_decision. Defined.

(** The object kept in [currentJob] (built at App.js:105-113 and 146-154). *)
Module Job.
Record t := mk {
  id : string;
  type : string;
  status : string;
  progress : Z;
  completed : Z;
  failed : Z;
  total : Z
}.
End Job.

(** The value of [JSON.parse(latestMessage)], seen through the properties
    the [switch (data.type)] reads.  [job_id], [url], [data], [total] and
    [error] are the wire names; an absent optional property is [None]. *)
Inductive Data :=
  | progress_update (job_id : string) (progress completed failed : Z)
                    (total : option Z)
  | url_complete (job_id : string) (success : bool) (url : option string)
                 (data : option Payload)
  | job_complete (job_id : string) (completed failed : Z) (total : option Z)
  | job_error (job_id : string) (error : string)
  | other_type (type : string).

(** A text frame as delivered in [event.data].  [JSON.parse] is a platform
    function: a frame is represented by what [JSON.parse] makes of it, either
    an object ([frame_json]) or a [SyntaxError] ([frame_malformed]). *)
Inductive Frame :=
  | frame_json (data : Data)
  | frame_malformed (raw : string).

Definition JSON_parse (m : Frame) : option Data :=
  match m with
  | frame_json data => Some data
  | frame_malformed _ => None
  end.

(** Calls to [toast.success] / [toast.error]. *)
Inductive Toast :=
  | toast_success (msg : string)
  | toast_error (msg : string).

(** The [useState] cells of [Home] (App.js:20-23), the toasts raised so far
    and the lines written with [console.error], oldest first. *)
Record Home := mkHome {
  currentJob : option Job.t;
  jobResults : list Payload;
  isLoading : bool;
  toasts : list Toast;
  console : list string
}.

Definition setCurrentJob (f : option Job.t → option Job.t) (st : Home) : Home :=
  mkHome (f (currentJob st)) (jobResults st) (isLoading st) (toasts st) (console st).

Definition setJobResults (f : list Payload → list Payload) (st : Home) : Home :=
  mkHome (currentJob st) (f (jobResults st)) (isLoading st) (toasts st) (console st).

Definition setIsLoading (b : bool) (st : Home) : Home :=
  mkHome (currentJob st) (jobResults st) b (toasts st) (console st).

Definition toast (t : Toast) (st : Home) : Home :=
  mkHome (currentJob st) (jobResults st) (isLoading st) (toasts st ++ [t]) (console st).

Definition console_error (line : string) (st : Home) : Home :=
  mkHome (currentJob st) (jobResults st) (isLoading st) (toasts st) (console st ++ [line]).

(* ===================================================================== *)
(** ** App.js: the message-handling effect                                 *)
(* ===================================================================== *)

(** [data.total || prev.total]: [0] and [undefined] are falsy. *)
Definition total_or (t : option Z) (prev : Z) : Z :=
  match t with
  | Some n => if bool_decide (n = 0) then prev else n
  | None => prev
  end.

(** [currentJob && data.job_id === currentJob.id] *)
Definition is_current (job_id : string) (cur : option Job.t) : bool :=
  match cur with
  | Some job => bool_decide (job_id = Job.id job)
  | None => false
  end.

(** App.js:52-61, the updater passed to [setJobResults]:
    [findIndex(r => r.url === data.url)], then replace in place or push. *)
Definition upsert (key : option string) (d : Payload) (prev : list Payload)
  : list Payload :=
  match list_find (λ r, url r = key) prev with
  | Some (existingIndex, _) => <[existingIndex := d]> prev
  | None => prev ++ [d]
  end.

(** App.js:37-87, the [switch (data.type)].  The guard reads the
    [currentJob] of the render the effect belongs to, which is the committed
    state when the effect runs. *)
Definition handle (data : Data) (st : Home) : Home :=
  match data with
  | progress_update job_id progress completed failed total =>
      if is_current job_id (currentJob st) then
        setCurrentJob (fmap (λ prev,
          Job.mk (Job.id prev) (Job.type prev) (Job.status prev)
                 progress completed failed (total_or total (Job.total prev)))) st
      else st
  | url_complete _ success key d =>
      match success, d with
      | true, Some d => setJobResults (upsert key d) st
      | _, _ => st
      end
  | job_complete job_id completed failed total =>
      let st1 := toast (toast_success
                   ("Scraping completed! " +:+ pretty completed +:+
                    " successful, " +:+ pretty failed +:+ " failed")) st in
      let st2 := setIsLoading false st1 in
      if is_current job_id (currentJob st) then
        setCurrentJob (fmap (λ prev,
          Job.mk (Job.id prev) (Job.type prev) "completed"
                 100 completed failed (total_or total (Job.total prev)))) st2
      else st2
  | job_error _ error =>
      setIsLoading false (toast (toast_error ("Scraping failed: " +:+ error)) st)
  | other_type _ => st
  end.

(** App.js:30-92, the body of the effect: only the last element of
    [messages] is looked at. *)
Definition handleMessages (messages : list Frame) (st : Home) : Home :=
  match last messages with
  | Some latestMessage =>
      match JSON_parse latestMessage with
      | Some data => handle data st
      | None => console_error "Error parsing WebSocket message:" st
      end
  | None => st
  end.

(* ===================================================================== *)
(** ** App.js: the submission handlers                                     *)
(* ===================================================================== *)

(** What a JavaScript statement can end with: normally, or by throwing. *)
Inductive Thrown :=
  | ReferenceError (ident : string)
  | RequestFailed.

Inductive Completion (A : Type) :=
  | Normal (a : A)
  | Throw (e : Thrown).
Arguments Normal {A} a.
Arguments Throw {A} e.

(** Statements of a handler: they update the component state and complete. *)
Definition Stmt (A : Type) : Type := Home → Home * Completion A.

Definition ret {A} (a : A) : Stmt A := λ st, (st, Normal a).
Definition throw {A} (e : Thrown) : Stmt A := λ st, (st, Throw e).
Definition bind {A B} (m : Stmt A) (k : A → Stmt B) : Stmt B :=
  λ st, match m st with
        | (st', Normal a) => k a st'
        | (st', Throw e) => (st', Throw e)
        end.
Definition do (f : Home → Home) : Stmt unit := λ st, (f st, Normal tt).
(** [try { body } catch (error) { handler error }] *)
Definition try_catch {A} (body : Stmt A) (handler : Thrown → Stmt A) : Stmt A :=
  λ st, match body st with
        | (st', Normal a) => (st', Normal a)
        | (st', Throw e) => handler e st'
        end.

Global Instance Stmt_bind : MBind Stmt := λ A B k m, bind m k.
Global Instance Stmt_ret : MRet Stmt := λ A a, ret a.

(** The bindings visible in the body of the handlers: the imports of App.js
    (lines 1-14), its module constants and functions, the locals of [Home],
    the parameters and locals of the two handlers, and the globals the file
    uses. *)
Definition App_scope : list string :=
  [ "React"; "useState"; "useEffect"; "BrowserRouter"; "Routes"; "Route";
    "axios"; "Toaster"; "toast"; "Header"; "ScrapingForm"; "BulkUpload";
    "ProgressTracker"; "ResultsTable"; "useWebSocket";
    "BACKEND_URL"; "API"; "Home"; "App";
    "activeTab"; "setActiveTab"; "currentJob"; "setCurrentJob";
    "jobResults"; "setJobResults"; "isLoading"; "setIsLoading";
    "wsUrl"; "messages"; "isConnected";
    "handleSingleUrlSubmit"; "handleBulkUpload"; "downloadResults";
    "downloadTemplate";
    "url"; "file"; "maxThreads"; "formData"; "response"; "jobData";
    "process"; "JSON"; "console"; "FormData"; "Blob"; "window"; "document" ].

(** Evaluating the callee of [ident(...)]: an identifier without a binding
    throws a ReferenceError; [run] is the bound function. *)
Definition call_ident (scope : list string) (ident : string) (run : Stmt unit)
  : Stmt unit :=
  if bool_decide (ident ∈ scope) then run else throw (ReferenceError ident).

Definition describe (e : Thrown) : string :=
  match e with
  | ReferenceError ident => "ReferenceError: " +:+ ident +:+ " is not defined"
  | RequestFailed => "AxiosError"
  end.

(** The outcome of [await axios.post(...)]: a rejection, or a response whose
    [data] has [status], [job_id] and [message]. *)
Inductive Response :=
  | rejected
  | resolved (status job_id message : string).

Definition axios_post (r : Response) : Stmt (string * string * string) :=
  match r with
  | rejected => throw RequestFailed
  | resolved status job_id message => ret (status, job_id, message)
  end.

Section Handlers.
(** What [pollJobStatus(job_id)] would run if the identifier were bound. *)
Variable pollJobStatus : string → Stmt unit.

(** App.js:98-122, the [try] block of [handleSingleUrlSubmit]. *)
Definition single_try (r : Response) : Stmt unit :=
  '(status, job_id, message) ← axios_post r;
  if bool_decide (status = "started") then
    let jobData := Job.mk job_id "single" "started" 0 0 0 1 in
    do (setCurrentJob (λ _, Some jobData)) ;;
    do (toast (toast_success "Scraping started! Check progress below.")) ;;
    call_ident App_scope "pollJobStatus" (pollJobStatus job_id)
  else
    do (toast (toast_error message)) ;;
    do (setIsLoading false).

(** App.js:94-128 *)
Definition handleSingleUrlSubmit (r : Response) : Stmt unit :=
  do (setIsLoading true) ;;
  do (setJobResults (λ _, [])) ;;
  try_catch (single_try r) (λ error,
    do (toast (toast_error "Failed to start scraping")) ;;
    do (setIsLoading false) ;;
    do (console_error ("Error: " +:+ describe error))).

(** App.js:138-162, the [try] block of [handleBulkUpload]. *)
Definition bulk_try (r : Response) : Stmt unit :=
  '(status, job_id, message) ← axios_post r;
  if bool_decide (status = "started") then
    do (setCurrentJob (λ _, Some (Job.mk job_id "bulk" "started" 0 0 0 0))) ;;
    do (toast (toast_success message)) ;;
    call_ident App_scope "pollJobStatus" (pollJobStatus job_id)
  else
    do (toast (toast_error message)) ;;
    do (setIsLoading false).

(** App.js:130-168 *)
Definition handleBulkUpload (r : Response) : Stmt unit :=
  do (setIsLoading true) ;;
  do (setJobResults (λ _, [])) ;;
  try_catch (bulk_try r) (λ error,
    do (toast (toast_error "Failed to start bulk scraping")) ;;
    do (setIsLoading false) ;;
    do (console_error ("Error: " +:+ describe error))).
End Handlers.

(** The state of [Home] on its first render (App.js:20-23). *)
Definition Home_init : Home := mkHome None [] false [] [].

(* ===================================================================== *)
(** ** hooks/useWebSocket.js                                               *)
(* ===================================================================== *)

Inductive ReadyState := CONNECTING | OPEN | CLOSING | CLOSED.

Global Instance ReadyState_eq_dec : EqDecision ReadyState.
Proof. solve_decision. Defined.

(** A [WebSocket] object: its [readyState] and the URL it was built with
    (the [url] its handlers' [connect] closes over). *)
Record Socket := mkSocket {
  readyState : ReadyState;
  sock_url : string
}.

(** A timeout created by [setTimeout(callback, timeout)]: the delay, whether
    it is still pending (neither fired nor cleared), and the URL its
    callback's [connect] closes over. *)
Record Timer := mkTimer {
  delay : Z;
  pending : bool;
  timer_url : string
}.

(** The hook's cells (useWebSocket.js:4-9) and the browser objects it
    created.  A socket or timeout is named by its position in [sockets] or
    [timers]; [ws] and [reconnectTimeout] hold such names, [None] for
    [null].  [effect_active] tells that the effect of lines 54-67 has run
    and its cleanup is registered. *)
Record Hook := mkHook {
  messages : list Frame;
  isConnected : bool;
  error : option string;
  ws : option nat;
  reconnectTimeout : option nat;
  reconnectAttempts : nat;
  sockets : list Socket;
  timers : list Timer;
  effect_active : bool
}.

Definition maxReconnectAttempts : nat := 5.

Definition Hook_init : Hook := mkHook [] false None None None 0 [] [] false.

Definition setMessages (f : list Frame → list Frame) (h : Hook) : Hook :=
  mkHook (f (messages h)) (isConnected h) (error h) (ws h) (reconnectTimeout h)
         (reconnectAttempts h) (sockets h) (timers h) (effect_active h).

Definition setIsConnected (b : bool) (h : Hook) : Hook :=
  mkHook (messages h) b (error h) (ws h) (reconnectTimeout h)
         (reconnectAttempts h) (sockets h) (timers h) (effect_active h).

Definition setError (e : option string) (h : Hook) : Hook :=
  mkHook (messages h) (isConnected h) e (ws h) (reconnectTimeout h)
         (reconnectAttempts h) (sockets h) (timers h) (effect_active h).

Definition set_reconnectAttempts (n : nat) (h : Hook) : Hook :=
  mkHook (messages h) (isConnected h) (error h) (ws h) (reconnectTimeout h)
         n (sockets h) (timers h) (effect_active h).

Definition set_sockets (f : list Socket → list Socket) (h : Hook) : Hook :=
  mkHook (messages h) (isConnected h) (error h) (ws h) (reconnectTimeout h)
         (reconnectAttempts h) (f (sockets h)) (timers h) (effect_active h).

Definition set_timers (f : list Timer → list Timer) (h : Hook) : Hook :=
  mkHook (messages h) (isConnected h) (error h) (ws h) (reconnectTimeout h)
         (reconnectAttempts h) (sockets h) (f (timers h)) (effect_active h).

Definition set_effect_active (b : bool) (h : Hook) : Hook :=
  mkHook (messages h) (isConnected h) (error h) (ws h) (reconnectTimeout h)
         (reconnectAttempts h) (sockets h) (timers h) b.

(** [ws.current = new WebSocket(url)] *)
Definition new_WebSocket (u : string) (h : Hook) : Hook :=
  mkHook (messages h) (isConnected h) (error h) (Some (length (sockets h)))
         (reconnectTimeout h) (reconnectAttempts h)
         (sockets h ++ [mkSocket CONNECTING u]) (timers h) (effect_active h).

(** [reconnectTimeout.current = setTimeout(callback, timeout)] *)
Definition setTimeout (u : string) (timeout : Z) (h : Hook) : Hook :=
  mkHook (messages h) (isConnected h) (error h) (ws h)
         (Some (length (timers h))) (reconnectAttempts h)
         (sockets h) (timers h ++ [mkTimer timeout true u]) (effect_active h).

(** [clearTimeout(t)]: the timeout will not fire any more. *)
Definition clearTimeout (t : nat) (h : Hook) : Hook :=
  set_timers (alter (λ tm, mkTimer (delay tm) false (timer_url tm)) t) h.

(** [socket.close(1000, reason)]: a socket that is connecting or open starts
    closing; the [close] event comes later. *)
Definition WebSocket_close (i : nat) (h : Hook) : Hook :=
  set_sockets (alter (λ s,
    match readyState s with
    | CONNECTING | OPEN => mkSocket CLOSING (sock_url s)
    | _ => s
    end) i) h.

Definition set_readyState (i : nat) (r : ReadyState) (h : Hook) : Hook :=
  set_sockets (alter (λ s, mkSocket r (sock_url s)) i) h.

(** The delays of all the retries scheduled so far, oldest first. *)
Definition scheduled (h : Hook) : list Z := delay <$> timers h.

(** The retries that are scheduled and have neither fired nor been cleared. *)
Definition in_flight (h : Hook) : list Timer := filter (λ tm, pending tm = true) (timers h).

Section useWebSocket.
(** Whether [new WebSocket(url)] throws (a [SyntaxError] for a URL the
    browser does not accept). *)
Variable WebSocket_throws : string → bool.

(** useWebSocket.js:12-52.  The four handlers are installed on the new
    socket; they are [onopen], [onmessage], [onclose] and [onerror]
    below. *)
Definition connect (u : string) (h : Hook) : Hook :=
  if WebSocket_throws u then setError (Some "Failed to connect") h
  else new_WebSocket u h.

(** useWebSocket.js:16-21 *)
Definition onopen (h : Hook) : Hook :=
  set_reconnectAttempts 0 (setError None (setIsConnected true h)).

(** useWebSocket.js:23-25 *)
Definition onmessage (event_data : Frame) (h : Hook) : Hook :=
  setMessages (λ prevMessages, prevMessages ++ [event_data]) h.

(** useWebSocket.js:27-41; [u] is the URL of the socket the handler is
    installed on. *)
Definition onclose (u : string) (event_code : Z) (h : Hook) : Hook :=
  let h1 := setIsConnected false h in
  if bool_decide (event_code ≠ 1000)
     && bool_decide (reconnectAttempts h1 < maxReconnectAttempts)%nat
  then
    let timeout := 2 ^ Z.of_nat (reconnectAttempts h1) * 1000 in
    setTimeout u timeout h1
  else h1.

(** useWebSocket.js:36-39, the callback given to [setTimeout]. *)
Definition reconnect (u : string) (h : Hook) : Hook :=
  connect u (set_reconnectAttempts (S (reconnectAttempts h)) h).

(** useWebSocket.js:43-46 *)
Definition onerror (h : Hook) : Hook :=
  setError (Some "Connection error") h.

(** useWebSocket.js:59-66, the effect's cleanup. *)
Definition cleanup (h : Hook) : Hook :=
  let h1 := match reconnectTimeout h with
            | Some t => clearTimeout t h
            | None => h
            end in
  match ws h1 with
  | Some i => WebSocket_close i h1
  | None => h1
  end.

(** useWebSocket.js:54-58, the effect's body; the empty string is falsy. *)
Definition effect (u : string) (h : Hook) : Hook :=
  set_effect_active true (if bool_decide (u = "") then h else connect u h).

(** What can happen to the hook.  React runs the effect after the first
    render and runs it again, cleanup first, when [url] has changed or the
    component is mounted again; the browser delivers [open], [message],
    [error] and [close] events to a socket and fires timeouts. *)
Inductive Event :=
  | EvEffect (u : string)
  | EvUnmount
  | EvOpen (i : nat)
  | EvMessage (i : nat) (event_data : Frame)
  | EvError (i : nat)
  | EvClose (i : nat) (event_code : Z)
  | EvTimeout (t : nat).

(** One turn of the event loop.  An event the browser cannot deliver (an
    [open] on a socket that is not connecting, a [message] on a socket that
    is not open, anything on a closed socket, a timeout that is not
    pending) runs no handler. *)
Definition dispatch (ev : Event) (h : Hook) : Hook :=
  match ev with
  | EvEffect u =>
      effect u (if effect_active h then cleanup h else h)
  | EvUnmount =>
      if effect_active h then set_effect_active false (cleanup h) else h
  | EvOpen i =>
      match sockets h !! i with
      | Some (mkSocket CONNECTING _) => onopen (set_readyState i OPEN h)
      | _ => h
      end
  | EvMessage i event_data =>
      match sockets h !! i with
      | Some (mkSocket OPEN _) => onmessage event_data h
      | _ => h
      end
  | EvError i =>
      match sockets h !! i with
      | Some (mkSocket (CONNECTING | OPEN | CLOSING) _) => onerror h
      | _ => h
      end
  | EvClose i event_code =>
      match sockets h !! i with
      | Some (mkSocket (CONNECTING | OPEN | CLOSING) u) =>
          onclose u event_code (set_readyState i CLOSED h)
      | _ => h
      end
  | EvTimeout t =>
      match timers h !! t with
      | Some (mkTimer _ true u) =>
          reconnect u (set_timers (alter (λ tm, mkTimer (delay tm) false (timer_url tm)) t) h)
      | _ => h
      end
  end.

Definition run (evs : list Event) (h : Hook) : Hook :=
  foldl (λ h ev, dispatch ev h) h evs.

(** A run of consecutive connection losses: the [k]-th socket is lost with
    the next code, then the [k]-th timeout fires, and so on. *)
Fixpoint losses (k : nat) (codes : list Z) : list Event :=
  match codes with
  | [] => []
  | code :: codes => EvClose k code :: EvTimeout k :: losses (S k) codes
  end.
End useWebSocket.

(* ===================================================================== *)
(** ** The page: the hook's [messages] feeding [Home]'s effect             *)
(* ===================================================================== *)

(** [Home] calls [useWebSocket(wsUrl)] (App.js:27) and reads its [messages]
    in the effect of App.js:30-92.  React runs that effect after a render in
    which [messages] or [currentJob] has changed; several socket events may be
    handled before it gets to run. *)
Inductive PageEvent :=
  | Ws (ev : Event)
  | MessagesEffect.

Definition page_step (WebSocket_throws : string → bool)
    (pe : PageEvent) (p : Hook * Home) : Hook * Home :=
  match pe with
  | Ws ev => (dispatch WebSocket_throws ev p.1, p.2)
  | MessagesEffect => (p.1, handleMessages (messages p.1) p.2)
  end.

Definition page_run (WebSocket_throws : string → bool)
    (pes : list PageEvent) (p : Hook * Home) : Hook * Home :=
  foldl (λ p pe, page_step WebSocket_throws pe p) p pes.

(** Decoding and applying one frame: the effect's body on that frame. *)
Definition apply_frame (st : Home) (m : Frame) : Home := handleMessages [m] st.

(* ===================================================================== *)
(** ** Notions used in the statements                                      *)
(* ===================================================================== *)

(** The states after each of a series of events, in order. *)
Fixpoint snapshots (evs : list Data) (st : Home) : list Home :=
  match evs with
  | [] => []
  | ev :: evs => handle ev st :: snapshots evs (handle ev st)
  end.

(** The [progress] shown by a snapshot, if a job is tracked. *)
Definition shown_progress (st : Home) : option Z := Job.progress <$> currentJob st.

(** A terminal state is sticky for an event: if the tracked job is completed
    or failed, the event changes none of status, progress, completed,
    failed. *)
Definition sticky (ev : Data) (st : Home) : Prop :=
  ∀ job, currentJob st = Some job →
    Job.status job = "completed" ∨ Job.status job = "failed" →
    ∃ job', currentJob (handle ev st) = Some job'
      ∧ Job.status job' = Job.status job
      ∧ Job.progress job' = Job.progress job
      ∧ Job.completed job' = Job.completed job
      ∧ Job.failed job' = Job.failed job.

(** The sockets that are not closed. *)
Definition live (h : Hook) : list Socket :=
  filter (λ s, readyState s ≠ CLOSED) (sockets h).

(** Events other than a run of the effect: between two of those the hook
    maintains one logical session. *)
Definition is_EvEffect (ev : Event) : bool :=
  match ev with EvEffect _ => true | _ => false end.

Definition one_session (evs : list Event) : Prop :=
  Forall (λ ev, is_EvEffect ev = false) evs.

(** One frame received on socket [i] and then one run of [Home]'s effect. *)
Definition receive_and_process (i : nat) (m : Frame) : list PageEvent :=
  [Ws (EvMessage i m); MessagesEffect].

(** The [ProgressUpdate] events for one job, from their progress, completed,
    failed and total fields. *)
Definition updates_for (job_id : string) (us : list (Z * Z * Z * option Z))
  : list Data :=
  (λ '(p, c, f, t), progress_update job_id p c f t) <$> us.

(** The backoff delays of the five retries. *)
Definition backoff : list Z := [1000; 2000; 4000; 8000; 16000].

(** The progress shown before the events and after each of them. *)
Definition observed_progress (evs : list Data) (st : Home) : list Z :=
  omap shown_progress (st :: snapshots evs st).

(** The hook keeps at most one thing going: a socket that is not closed or
    a retry in flight. *)
Definition one_channel (h : Hook) : Prop :=
  (length (live h) + length (in_flight h) ≤ 1)%nat.

(** A run of consecutive connection losses along one chain of sockets:
    socket [i] is lost with the first code and retry [t] fires, which creates
    socket [s]; socket [s] is lost with the next code and retry [S t] fires,
    which creates socket [S s]; and so on. *)
Fixpoint losses_from (i t s : nat) (codes : list Z) : list Event :=
  match codes with
  | [] => []
  | code :: codes => EvClose i code :: EvTimeout t :: losses_from s (S t) (S s) codes
  end.

(** The hook after the effect has run for [u] and [k] consecutive
    connection attempts were lost and retried: [k] closed sockets and a
    connecting one, [k] fired retries. *)
Definition after_losses (u : string) (k : nat) : Hook :=
  mkHook [] false None (Some k) (match k with O => None | S j => Some j end) k
    (replicate k (mkSocket CLOSED u) ++ [mkSocket CONNECTING u])
    ((λ j, mkTimer (2 ^ Z.of_nat j * 1000) false u) <$> seq 0 k) true.

(* ===================================================================== *)
(** ** More of the code: the hook's senders, the tracker, the table        *)
(* ===================================================================== *)

(** What [sendMessage] does: [ws.current.send(message)] on a socket, or
    [console.warn('WebSocket is not connected')]. *)
Inductive SendResult :=
  | sent (i : nat) (message : string)
  | warned.

(** useWebSocket.js:69-75 *)
Definition sendMessage (message : string) (h : Hook) : SendResult :=
  match ws h with
  | Some i =>
      match sockets h !! i with
      | Some (mkSocket OPEN _) => sent i message
      | _ => warned
      end
  | None => warned
  end.

(** useWebSocket.js:77-79 *)
Definition clearMessages (h : Hook) : Hook := setMessages (λ _, []) h.

(** Events other than a run of the effect or its cleanup: what happens while
    the component stays mounted. *)
Definition is_socket_event (ev : Event) : bool :=
  match ev with EvEffect _ | EvUnmount => false | _ => true end.

Definition mounted_session (evs : list Event) : Prop :=
  Forall (λ ev, is_socket_event ev = true) evs.

(** The two refs name what is going on: a socket that is not closed is
    [ws.current], a retry in flight is [reconnectTimeout.current]. *)
Definition refs_current (h : Hook) : Prop :=
  (∀ i s, sockets h !! i = Some s → readyState s ≠ CLOSED → ws h = Some i)
  ∧ (∀ t tm, timers h !! t = Some tm → pending tm = true →
       reconnectTimeout h = Some t).

(** [ws.current] is the socket created last, [null] if none was created. *)
Definition ws_is_last (h : Hook) : Prop :=
  match ws h with
  | Some i => S i = length (sockets h)
  | None => sockets h = []
  end.

(** The attempt counter stays within the ceiling, and below it while a
    retry is in flight. *)
Definition attempts_bounded (h : Hook) : Prop :=
  (reconnectAttempts h ≤ maxReconnectAttempts)%nat
  ∧ (in_flight h ≠ [] → (reconnectAttempts h < maxReconnectAttempts)%nat).

(** All the events of a series applied by the reducer, in order. *)
Definition handle_all (evs : list Data) (st : Home) : Home :=
  foldl (λ st ev, handle ev st) st evs.

(** A successful [url_complete] whose payload carries the event's [url] as
    its own [url] property; any other event. *)
Definition well_keyed (ev : Data) : Prop :=
  match ev with
  | url_complete _ true key (Some d) => url d = key
  | _ => True
  end.

(** The [job_id] property of a message, if its type has one. *)
Definition event_job_id (ev : Data) : option string :=
  match ev with
  | progress_update job_id _ _ _ _ => Some job_id
  | url_complete job_id _ _ _ => Some job_id
  | job_complete job_id _ _ _ => Some job_id
  | job_error job_id _ => Some job_id
  | other_type _ => None
  end.

(** Two states of [Home] that differ at most in what was written to the
    console. *)
Definition same_view (st1 st2 : Home) : Prop :=
  currentJob st1 = currentJob st2 ∧ jobResults st1 = jobResults st2
  ∧ isLoading st1 = isLoading st2 ∧ toasts st1 = toasts st2.

(** The frames [JSON.parse] accepts. *)
Definition parses (m : Frame) : Prop := is_Some (JSON_parse m).

Global Instance parses_dec m : Decision (parses m).
Proof. unfold parses. apply _. Defined.

(** ProgressTracker (src/unnamed/part_000:21-32), [getStatusText]. *)
Definition getStatusText (job : Job.t) : string :=
  if bool_decide (Job.status job = "completed") then "Completed"
  else if bool_decide (Job.status job = "failed") then "Failed"
  else if bool_decide (Job.status job = "in_progress") then "In Progress"
  else "Starting...".

(** ResultsTable (components/BulkUpload.js:269, 281-283).  Lengths and
    indices are natural numbers; [Math.ceil(n / itemsPerPage)] is the
    quotient rounded up; [slice(start, end)] keeps the elements from [start]
    up to, not including, [end]. *)
Definition itemsPerPage : nat := 10.

Definition totalPages (filteredResults : list Payload) : nat :=
  (length filteredResults + (itemsPerPage - 1)) / itemsPerPage.

Definition startIndex (currentPage : nat) : nat := (currentPage - 1) * itemsPerPage.

Definition slice (start end_ : nat) (l : list Payload) : list Payload :=
  take (end_ - start) (drop start l).

Definition paginatedResults (currentPage : nat) (filteredResults : list Payload)
  : list Payload :=
  slice (startIndex currentPage) (startIndex currentPage + itemsPerPage)
        filteredResults.

(** components/BulkUpload.js:581 and 595, the Previous and Next buttons. *)
Definition previousPage (currentPage : nat) : nat := Nat.max 1 (currentPage - 1).

Definition nextPage (filteredResults : list Payload) (currentPage : nat) : nat :=
  Nat.min (totalPages filteredResults) (currentPage + 1).

(** components/BulkUpload.js:290-294, [openUrl]: the address given to
    [window.open], if any; [null], [undefined] and the empty string are
    falsy. *)
Definition openUrl (u : option string) : option string :=
  match u with
  | Some u =>
      if bool_decide (u = "") then None
      else Some (if String.prefix "http" u then u else "https://" +:+ u)
  | None => None
  end.

(* ===================================================================== *)
(** ** Lemmas on the result list                                           *)
(* ===================================================================== *)

Lemma upsert_nil key d : upsert key d [] = [d].
Proof. reflexivity. Qed.

Lemma upsert_cons key d r prev :
  upsert key d (r :: prev) =
    if decide (url r = key) then d :: prev else r :: upsert key d prev.
Proof.
  unfold upsert. cbn [list_find].
  destruct (decide (url r = key)) as [Hk|Hk]; [reflexivity|].
  destruct (list_find _ prev) as [[i x]|]; reflexivity.
Qed.

Lemma upsert_idempotent key d prev :
  url d = key → upsert key d (upsert key d prev) = upsert key d prev.
Proof.
  intros Hd. induction prev as [|r prev IH].
  - rewrite upsert_nil, upsert_cons. rewrite decide_True by done. done.
  - rewrite upsert_cons. destruct (decide (url r = key)) as [Hk|Hk].
    + rewrite upsert_cons. by rewrite decide_True.
    + rewrite upsert_cons. rewrite decide_False by done. by rewrite IH.
Qed.

Lemma upsert_replaces key d1 d2 prev :
  url d1 = key → upsert key d2 (upsert key d1 prev) = upsert key d2 prev.
Proof.
  intros Hd. induction prev as [|r prev IH].
  - rewrite !upsert_nil, upsert_cons. by rewrite decide_True.
  - rewrite !upsert_cons. destruct (decide (url r = key)) as [Hk|Hk].
    + rewrite upsert_cons. by rewrite decide_True.
    + rewrite upsert_cons. rewrite decide_False by done. by rewrite IH.
Qed.

Lemma upsert_entries key d prev :
  url d = key →
  (length (filter (λ r, url r = key) prev) ≤ 1)%nat →
  filter (λ r, url r = key) (upsert key d prev) = [d].
Proof.
  intros Hd. induction prev as [|r prev IH]; intros Hlen.
  - rewrite upsert_nil. rewrite filter_cons, decide_True by done. done.
  - rewrite upsert_cons. rewrite filter_cons in Hlen.
    destruct (decide (url r = key)) as [Hk|Hk].
    + rewrite filter_cons, decide_True by done. f_equal.
      cbn in Hlen. destruct (filter _ prev); [done|cbn in Hlen; lia].
    + rewrite filter_cons, decide_False by done. by apply IH.
Qed.

Lemma handle_url_complete job_id key d st :
  handle (url_complete job_id true key (Some d)) st = setJobResults (upsert key d) st.
Proof. reflexivity. Qed.

Lemma handle_progress_update_current job p c f t results loading ts cs :
  handle (progress_update (Job.id job) p c f t)
         (mkHome (Some job) results loading ts cs)
  = mkHome (Some (Job.mk (Job.id job) (Job.type job) (Job.status job) p c f
                         (total_or t (Job.total job))))
           results loading ts cs.
Proof. unfold handle, is_current. cbn. by rewrite bool_decide_eq_true_2. Qed.

(* ===================================================================== *)
(** ** The reconciler (App.js:30-92)                                       *)
(* ===================================================================== *)

(** C1, as the code has it: a [ProgressUpdate] or [ItemComplete] event never
    changes [status], in a terminal state or any other; an [ItemComplete]
    event leaves the whole job snapshot as it is; a [ProgressUpdate] carrying
    the tracked job's id overwrites [progress], [completed] and [failed] with
    the event's values whatever the status is. *)
Theorem nonterminal_events_keep_status :
  (∀ job_id p c f t st,
      Job.status <$> currentJob (handle (progress_update job_id p c f t) st)
      = Job.status <$> currentJob st)
  ∧ (∀ job_id success key d st,
      currentJob (handle (url_complete job_id success key d) st) = currentJob st)
  ∧ (∀ job p c f t results loading ts cs,
      currentJob (handle (progress_update (Job.id job) p c f t)
                         (mkHome (Some job) results loading ts cs))
      = Some (Job.mk (Job.id job) (Job.type job) (Job.status job) p c f
                     (total_or t (Job.total job)))).
Proof.
  split; [|split].
  - intros job_id p c f t st. unfold handle.
    destruct (is_current job_id (currentJob st)); [|done].
    cbn. by destruct (currentJob st).
  - intros job_id success key d st. unfold handle.
    by destruct success, d.
  - intros job p c f t results loading ts cs.
    by rewrite handle_progress_update_current.
Qed.

(** C1 fails as stated: a completed job at 100% with 5 completed and 1 failed
    receives [progress_update] for its own id with progress 40, completed 2,
    failed 0, and the snapshot takes these values. *)
Lemma progress_update_after_completion_applied :
  ¬ sticky (progress_update "J1" 40 2 0 None)
           (mkHome (Some (Job.mk "J1" "bulk" "completed" 100 5 1 6)) [] false [] []).
Proof.
  intros Hsticky.
  destruct (Hsticky _ eq_refl (or_introl eq_refl)) as (job' & Hjob & _ & Hp & _).
  cbn in Hjob. injection Hjob as <-. cbn in Hp. discriminate.
Qed.

(** C2 at its failing input: job J_new is tracked with no results yet, and a
    successful [url_complete] for job J_old arrives.  Its payload enters the
    result list; the job snapshot is untouched. *)
Theorem stale_url_complete_enters_results :
  let J_new := Job.mk "J_new" "bulk" "started" 0 0 0 0 in
  let d := mkPayload (Some "a.com") [("email_address", "info@a.com")] in
  let st := mkHome (Some J_new) [] true [] [] in
  let st' := handle (url_complete "J_old" true (Some "a.com") (Some d)) st in
  jobResults st' = [d] ∧ currentJob st' = Some J_new.
Proof. split; reflexivity. Qed.

(** C3 on the code: a [job_error] event never touches the job snapshot, so
    the status stays what it was; the event only raises a toast and clears
    the loading flag. *)
Theorem job_error_keeps_job (job_id error : string) (st : Home) :
  currentJob (handle (job_error job_id error) st) = currentJob st
  ∧ isLoading (handle (job_error job_id error) st) = false
  ∧ toasts (handle (job_error job_id error) st)
    = toasts st ++ [toast_error ("Scraping failed: " +:+ error)].
Proof. repeat split. Qed.

Example job_error_for_current_job :
  let st := mkHome (Some (Job.mk "J1" "single" "started" 0 0 0 1)) [] true [] [] in
  Job.status <$> currentJob (handle (job_error "J1" "timeout") st) = Some "started".
Proof. reflexivity. Qed.

(** C4 at its failing input: the submission is answered with status
    [started].  In both handlers the [try] block throws a ReferenceError at
    the call of [pollJobStatus], whatever that function would do; the
    handler's own [catch] takes it, so the handler completes, with the
    failure toast after the success toast and the loading flag cleared. *)
Theorem started_submission_hits_unbound_pollJobStatus
    (pollJobStatus : string → Stmt unit) (job_id message : string) :
  (single_try pollJobStatus (resolved "started" job_id message) Home_init).2
    = Throw (ReferenceError "pollJobStatus")
  ∧ (bulk_try pollJobStatus (resolved "started" job_id message) Home_init).2
    = Throw (ReferenceError "pollJobStatus")
  ∧ handleSingleUrlSubmit pollJobStatus (resolved "started" job_id message) Home_init
    = (mkHome (Some (Job.mk job_id "single" "started" 0 0 0 1)) [] false
         [toast_success "Scraping started! Check progress below.";
          toast_error "Failed to start scraping"]
         ["Error: ReferenceError: pollJobStatus is not defined"],
       Normal ())
  ∧ handleBulkUpload pollJobStatus (resolved "started" job_id message) Home_init
    = (mkHome (Some (Job.mk job_id "bulk" "started" 0 0 0 0)) [] false
         [toast_success message;
          toast_error "Failed to start bulk scraping"]
         ["Error: ReferenceError: pollJobStatus is not defined"],
       Normal ()).
Proof. repeat split. Qed.

(** C5, as the code has it: the result list is searched by the [url]
    property of the stored payloads.  For events whose payload carries the
    event's [url] as its own [url]: applying the same event twice gives the
    list that applying it once gives, and two successive events for one key
    leave, in a list that had at most one entry for the key, exactly one
    entry for it, the second payload. *)
Theorem upsert_last_write_wins
    (job_id1 job_id2 : string) (key : option string) (d1 d2 : Payload) (st : Home) :
  url d1 = key → url d2 = key →
  let ev1 := url_complete job_id1 true key (Some d1) in
  let ev2 := url_complete job_id2 true key (Some d2) in
  jobResults (handle ev1 (handle ev1 st)) = jobResults (handle ev1 st)
  ∧ ((length (filter (λ r, url r = key) (jobResults st)) ≤ 1)%nat →
     filter (λ r, url r = key) (jobResults (handle ev2 (handle ev1 st))) = [d2]).
Proof.
  intros H1 H2 ev1 ev2. subst ev1 ev2. rewrite !handle_url_complete. cbn. split.
  - by apply upsert_idempotent.
  - intros Hlen. rewrite upsert_replaces by done. by apply upsert_entries.
Qed.

Lemma upsert_last_write_wins_witness :
  let d1 := mkPayload (Some "a.com") [("email_address", "v1@a.com")] in
  let d2 := mkPayload (Some "a.com") [("email_address", "v2@a.com")] in
  let ev1 := url_complete "J1" true (Some "a.com") (Some d1) in
  let ev2 := url_complete "J1" true (Some "a.com") (Some d2) in
  jobResults (handle ev1 (handle ev1 Home_init)) = jobResults (handle ev1 Home_init)
  ∧ filter (λ r, url r = Some "a.com") (jobResults (handle ev2 (handle ev1 Home_init))) = [d2].
Proof.
  intros d1 d2 ev1 ev2.
  destruct (upsert_last_write_wins "J1" "J1" (Some "a.com") d1 d2 Home_init
              eq_refl eq_refl) as [Hsame Hone].
  split; [exact Hsame | apply Hone; cbn; lia].
Defined.

(** C5 fails as stated: a successful [url_complete] for "a.com" whose payload
    has no [url] property, applied twice, leaves two entries. *)
Lemma upsert_twice_grows :
  let ev := url_complete "J1" true (Some "a.com")
              (Some (mkPayload None [("email_address", "info@a.com")])) in
  length (jobResults (handle ev Home_init)) = 1%nat
  ∧ length (jobResults (handle ev (handle ev Home_init))) = 2%nat.
Proof. split; reflexivity. Qed.

Lemma snapshots_updates job us st :
  currentJob st = Some job →
  shown_progress <$> snapshots (updates_for (Job.id job) us) st
  = (λ u, Some u.1.1.1) <$> us.
Proof.
  revert job st. induction us as [|[[[p c] f] t] us IH]; intros job st Hjob; [done|].
  cbn [updates_for fmap list_fmap snapshots].
  destruct st as [cur results loading ts cs]. cbn in Hjob. subst cur.
  rewrite handle_progress_update_current. f_equal.
  apply (IH (Job.mk (Job.id job) (Job.type job) (Job.status job) p c f
                    (total_or t (Job.total job)))).
  reflexivity.
Qed.

(** C9, as the code has it: the snapshot's [progress] after a
    [ProgressUpdate] for the tracked job is that event's [progress] field.
    So the progress observed over a series of such events is the starting
    progress followed by the events' [progress] fields, and it never
    decreases exactly when these never decrease; [completed] and [failed]
    play no part. *)
Theorem progress_follows_events
    (job : Job.t) (us : list (Z * Z * Z * option Z)) (st : Home) :
  currentJob st = Some job →
  observed_progress (updates_for (Job.id job) us) st
    = Job.progress job :: ((λ u, u.1.1.1) <$> us)
  ∧ (Sorted Z.le (observed_progress (updates_for (Job.id job) us) st)
     ↔ Sorted Z.le (Job.progress job :: ((λ u, u.1.1.1) <$> us))).
Proof.
  intros Hjob.
  assert (observed_progress (updates_for (Job.id job) us) st
          = Job.progress job :: ((λ u, u.1.1.1) <$> us)) as Hobs.
  { unfold observed_progress. cbn [omap list_omap].
    unfold shown_progress at 1. rewrite Hjob. cbn [fmap option_fmap option_map]. f_equal.
    pose proof (snapshots_updates job us st Hjob) as Hsnap.
    revert Hsnap. generalize (snapshots (updates_for (Job.id job) us) st).
    intros l. revert us. induction l as [|x l IH]; intros [|u us] Hsnap;
      try discriminate; [done|].
    cbn in Hsnap. injection Hsnap as Hx Hl.
    cbn. rewrite Hx. cbn. f_equal. by apply IH. }
  split; [exact Hobs | by rewrite Hobs].
Qed.

Lemma progress_follows_events_witness :
  let job := Job.mk "J1" "bulk" "started" 0 0 0 0 in
  let st := mkHome (Some job) [] true [] [] in
  let us := [(20, 1, 0, Some 5); (40, 2, 0, None)] in
  observed_progress (updates_for "J1" us) st = [0; 20; 40]
  ∧ (Sorted Z.le (observed_progress (updates_for "J1" us) st)
     ↔ Sorted Z.le [0; 20; 40]).
Proof.
  exact (progress_follows_events (Job.mk "J1" "bulk" "started" 0 0 0 0)
           [(20, 1, 0, Some 5); (40, 2, 0, None)]
           (mkHome (Some (Job.mk "J1" "bulk" "started" 0 0 0 0)) [] true [] [])
           eq_refl).
Defined.

(** C9 fails as stated: for the tracked job J1, not failed, two
    [progress_update] events with completed+failed going from 1 to 2 and
    [progress] fields 50 and 40 make the observed progress go 0, 50, 40. *)
Lemma progress_can_decrease :
  let job := Job.mk "J1" "bulk" "started" 0 0 0 0 in
  let st := mkHome (Some job) [] true [] [] in
  let us := [(50, 1, 0, None); (40, 2, 0, None)] in
  Sorted Z.le ((λ u, u.1.1.2 + u.1.2) <$> us)
  ∧ Forall (λ s, Job.status <$> currentJob s ≠ Some "failed")
           (st :: snapshots (updates_for "J1" us) st)
  ∧ observed_progress (updates_for "J1" us) st = [0; 50; 40]
  ∧ ¬ Sorted Z.le (observed_progress (updates_for "J1" us) st).
Proof.
  cbn. repeat split.
  - repeat constructor; lia.
  - repeat constructor; discriminate.
  - intros Hs. inversion Hs as [|? ? Hs' _]; subst.
    inversion Hs' as [|? ? _ Hhd]; subst. inversion Hhd; subst. lia.
Qed.

(* ===================================================================== *)
(** ** The page: which messages reach the reconciler                       *)
(* ===================================================================== *)

Lemma handleMessages_snoc messages m st :
  handleMessages (messages ++ [m]) st = apply_frame st m.
Proof. unfold apply_frame, handleMessages. by rewrite last_snoc. Qed.

Lemma setMessages_app h ms1 ms2 :
  setMessages (λ prev, prev ++ ms2) (setMessages (λ prev, prev ++ ms1) h)
  = setMessages (λ prev, prev ++ (ms1 ++ ms2)) h.
Proof. unfold setMessages. cbn. by rewrite app_assoc. Qed.

Lemma setMessages_nil h : setMessages (λ prev, prev ++ []) h = h.
Proof. destruct h. unfold setMessages. cbn. by rewrite app_nil_r. Qed.

Lemma dispatch_message_open WT h i u m :
  sockets h !! i = Some (mkSocket OPEN u) →
  dispatch WT (EvMessage i m) h = setMessages (λ prev, prev ++ [m]) h.
Proof. intros Hi. cbn. by rewrite Hi. Qed.

Lemma page_run_receive_and_process WT i u ms h st :
  sockets h !! i = Some (mkSocket OPEN u) →
  page_run WT (ms ≫= receive_and_process i) (h, st)
  = (setMessages (λ prev, prev ++ ms) h, foldl apply_frame st ms).
Proof.
  revert h st. induction ms as [|m ms IH]; intros h st Hi.
  - cbn. by rewrite setMessages_nil.
  - cbn [mbind list_bind receive_and_process app page_run foldl page_step fst snd].
    rewrite (dispatch_message_open WT h i u m Hi).
    change (messages (setMessages (λ prev, prev ++ [m]) h)) with (messages h ++ [m]).
    rewrite handleMessages_snoc.
    fold (page_run WT (ms ≫= receive_and_process i)
            (setMessages (λ prev, prev ++ [m]) h, apply_frame st m)).
    rewrite IH by exact Hi. by rewrite setMessages_app.
Qed.

Lemma page_run_burst WT i u ms h st :
  sockets h !! i = Some (mkSocket OPEN u) →
  page_run WT (Ws ∘ EvMessage i <$> ms) (h, st)
  = (setMessages (λ prev, prev ++ ms) h, st).
Proof.
  revert h. induction ms as [|m ms IH]; intros h Hi.
  - cbn. by rewrite setMessages_nil.
  - cbn [fmap list_fmap page_run foldl page_step fst snd compose].
    rewrite (dispatch_message_open WT h i u m Hi).
    fold (page_run WT (Ws ∘ EvMessage i <$> ms)
            (setMessages (λ prev, prev ++ [m]) h, st)).
    rewrite IH by exact Hi. by rewrite setMessages_app.
Qed.

(** C10, as the code has it: a run of [Home]'s effect decodes and applies
    the last received message only.  When the effect runs after each
    received message, every message is decoded and applied, in the order
    received; when several messages [ms] and then [m] arrive before the
    effect runs, only [m] is applied. *)
Theorem latest_message_is_applied
    (WebSocket_throws : string → bool) (i : nat) (u : string)
    (ms : list Frame) (m : Frame) (h : Hook) (st : Home) :
  sockets h !! i = Some (mkSocket OPEN u) →
  page_run WebSocket_throws (ms ≫= receive_and_process i) (h, st)
    = (setMessages (λ prev, prev ++ ms) h, foldl apply_frame st ms)
  ∧ page_run WebSocket_throws
      ((Ws ∘ EvMessage i <$> ms ++ [m]) ++ [MessagesEffect]) (h, st)
    = (setMessages (λ prev, prev ++ (ms ++ [m])) h, apply_frame st m).
Proof.
  intros Hi. split.
  - by apply (page_run_receive_and_process _ i u).
  - unfold page_run at 1. rewrite foldl_app.
    fold (page_run WebSocket_throws (Ws ∘ EvMessage i <$> ms ++ [m]) (h, st)).
    rewrite (page_run_burst _ i u) by exact Hi.
    cbn [foldl page_step fst snd].
    change (messages (setMessages (λ prev, prev ++ (ms ++ [m])) h))
      with (messages h ++ (ms ++ [m])).
    by rewrite app_assoc, handleMessages_snoc.
Qed.

Lemma latest_message_is_applied_witness :
  let ok := λ _ : string, false in
  let h := run ok [EvEffect "ws://host/ws"; EvOpen 0] Hook_init in
  let st := mkHome (Some (Job.mk "J1" "bulk" "started" 0 0 0 0)) [] true [] [] in
  let m1 := frame_json (progress_update "J1" 50 1 0 (Some 2)) in
  let m2 := frame_json (job_complete "J1" 2 0 (Some 2)) in
  page_run ok ([m1; m2] ≫= receive_and_process 0) (h, st)
    = (setMessages (λ prev, prev ++ [m1; m2]) h, foldl apply_frame st [m1; m2])
  ∧ page_run ok ((Ws ∘ EvMessage 0 <$> [m1] ++ [m2]) ++ [MessagesEffect]) (h, st)
    = (setMessages (λ prev, prev ++ ([m1] ++ [m2])) h, apply_frame st m2).
Proof.
  intros ok h st m1 m2.
  destruct (latest_message_is_applied ok 0 "ws://host/ws" [m1; m2] m2 h st eq_refl)
    as [Hall _].
  destruct (latest_message_is_applied ok 0 "ws://host/ws" [m1] m2 h st eq_refl)
    as [_ Hlast].
  split; [exact Hall | exact Hlast].
Defined.

(** C10 fails as stated: two successful [url_complete] frames, for a.com and
    then for b.com, are received on the open socket before [Home]'s effect
    runs.  Both are in [messages]; only the second reaches the result list. *)
Lemma burst_drops_earlier_message :
  let ok := λ _ : string, false in
  let st := mkHome (Some (Job.mk "J1" "bulk" "started" 0 0 0 0)) [] true [] [] in
  let da := mkPayload (Some "a.com") [] in
  let db := mkPayload (Some "b.com") [] in
  let m1 := frame_json (url_complete "J1" true (Some "a.com") (Some da)) in
  let m2 := frame_json (url_complete "J1" true (Some "b.com") (Some db)) in
  let p := page_run ok
             [Ws (EvEffect "ws://host/ws"); Ws (EvOpen 0);
              Ws (EvMessage 0 m1); Ws (EvMessage 0 m2); MessagesEffect]
             (Hook_init, st) in
  messages p.1 = [m1; m2]
  ∧ jobResults p.2 = [db]
  ∧ jobResults (foldl apply_frame st (messages p.1)) = [da; db]
  ∧ p.2 ≠ foldl apply_frame st (messages p.1).
Proof. cbn. repeat split. discriminate. Qed.

(* ===================================================================== *)
(** ** Lemmas on lists updated in place                                    *)
(* ===================================================================== *)

Section alter_filter.
Context {A : Type} (P : A → Prop) `{!∀ x, Decision (P x)} (f : A → A).

Lemma filter_alter_length_le i (l : list A) :
  (∀ x, l !! i = Some x → P (f x) → P x) →
  (length (filter P (alter f i l)) ≤ length (filter P l))%nat.
Proof.
  revert i. induction l as [|x l IH]; intros [|i] Hf;
    cbn [alter list_alter]; try lia; rewrite !filter_cons.
  - destruct (decide (P (f x))) as [Hfx|Hfx].
    + rewrite decide_True by (by apply Hf). done.
    + destruct (decide (P x)); cbn [length]; lia.
  - specialize (IH i (λ x Hx, Hf x Hx)).
    destruct (decide (P x)); cbn [length]; lia.
Qed.

Lemma filter_alter_length_eq i (l : list A) :
  (∀ x, l !! i = Some x → P (f x) ↔ P x) →
  length (filter P (alter f i l)) = length (filter P l).
Proof.
  revert i. induction l as [|x l IH]; intros [|i] Hf;
    cbn [alter list_alter]; try done; rewrite !filter_cons.
  - destruct (decide (P (f x))) as [Hfx|Hfx].
    + rewrite decide_True by (by apply Hf). done.
    + rewrite decide_False by (by rewrite <- Hf). done.
  - specialize (IH i (λ x Hx, Hf x Hx)).
    destruct (decide (P x)); cbn [length]; lia.
Qed.

Lemma filter_alter_length_drop i x (l : list A) :
  l !! i = Some x → P x → ¬ P (f x) →
  S (length (filter P (alter f i l))) = length (filter P l).
Proof.
  intros Hi Hx Hf. revert i Hi. induction l as [|y l IH]; intros [|i] Hi;
    cbn in Hi; try discriminate; cbn [alter list_alter]; rewrite !filter_cons.
  - injection Hi as ->.
    rewrite decide_False by done. by rewrite decide_True.
  - specialize (IH i Hi). destruct (decide (P y)); cbn [length]; lia.
Qed.

Lemma filter_nil_lookup i x (l : list A) :
  filter P l = [] → l !! i = Some x → ¬ P x.
Proof.
  intros Hnil Hi Hx.
  assert (x ∈ filter P l) as Hin.
  { apply list_elem_of_filter. split; [done|]. by eapply list_elem_of_lookup_2. }
  rewrite Hnil in Hin. by apply elem_of_nil in Hin.
Qed.

Lemma alter_id_on i (l : list A) :
  (∀ x, l !! i = Some x → f x = x) → alter f i l = l.
Proof.
  revert i. induction l as [|y l IH]; intros [|i] Hf;
    cbn [alter list_alter]; try done.
  - f_equal. by apply Hf.
  - f_equal. apply IH. intros x Hx. by apply Hf.
Qed.
End alter_filter.

(* ===================================================================== *)
(** ** The connection (hooks/useWebSocket.js)                              *)
(* ===================================================================== *)

Section connection.
Variable WT : string → bool.

Lemma run_app evs1 evs2 h : run WT (evs1 ++ evs2) h = run WT evs2 (run WT evs1 h).
Proof. apply foldl_app. Qed.

Lemma run_cons ev evs h : run WT (ev :: evs) h = run WT evs (dispatch WT ev h).
Proof. reflexivity. Qed.

Lemma live_nil_closed h i s :
  live h = [] → sockets h !! i = Some s → readyState s = CLOSED.
Proof.
  intros Hlive Hi.
  destruct (decide (readyState s = CLOSED)) as [|Hne]; [done|].
  destruct (filter_nil_lookup _ i s (sockets h) Hlive Hi). exact Hne.
Qed.

Lemma in_flight_nil_fired h t tm :
  in_flight h = [] → timers h !! t = Some tm → pending tm = false.
Proof.
  intros Hfl Ht.
  pose proof (filter_nil_lookup _ t tm (timers h) Hfl Ht) as Hnp.
  cbn beta in Hnp. destruct (pending tm); [by destruct Hnp | done].
Qed.

Lemma connect_live u h :
  (length (live (connect WT u h)) ≤ S (length (live h)))%nat.
Proof.
  unfold connect. destruct (WT u).
  - change (live (setError (Some "Failed to connect") h)) with (live h). lia.
  - unfold live, new_WebSocket. cbn [sockets].
    rewrite filter_app, length_app. cbn. destruct (decide _); cbn; lia.
Qed.

Lemma connect_timers u h : timers (connect WT u h) = timers h.
Proof. unfold connect. by destruct (WT u). Qed.

Lemma cleanup_live h : length (live (cleanup h)) = length (live h).
Proof.
  unfold cleanup.
  assert (∀ h', length (live match ws h' with
                              | Some i => WebSocket_close i h'
                              | None => h'
                              end) = length (live h')) as Hclose.
  { intros h'. destruct (ws h') as [i|]; [|done].
    unfold live, WebSocket_close. cbn.
    apply filter_alter_length_eq. intros s _.
    by destruct s as [[] ?]. }
  rewrite Hclose. by destruct (reconnectTimeout h).
Qed.

Lemma cleanup_in_flight h :
  (length (in_flight (cleanup h)) ≤ length (in_flight h))%nat.
Proof.
  unfold cleanup.
  assert (∀ h', in_flight match ws h' with
                          | Some i => WebSocket_close i h'
                          | None => h'
                          end = in_flight h') as Hclose.
  { intros h'. by destruct (ws h'). }
  rewrite Hclose. destruct (reconnectTimeout h) as [t|]; [|done].
  unfold in_flight, clearTimeout. cbn.
  apply filter_alter_length_le. intros tm _. cbn. discriminate.
Qed.

Lemma effect_init_one_channel u : one_channel (dispatch WT (EvEffect u) Hook_init).
Proof.
  unfold one_channel. cbn. unfold effect, connect.
  destruct (bool_decide (u = "")), (WT u); cbn;
    try destruct (decide _); cbn; lia.
Qed.

Lemma dispatch_one_channel ev h :
  is_EvEffect ev = false → one_channel h → one_channel (dispatch WT ev h).
Proof.
  unfold one_channel. intros Hev Hinv.
  destruct ev as [u| |i|i m|i|i code|t]; try discriminate; cbn [dispatch].
  - destruct (effect_active h); [|done].
    pose proof (cleanup_live h). pose proof (cleanup_in_flight h).
    change (live (set_effect_active false (cleanup h))) with (live (cleanup h)).
    change (in_flight (set_effect_active false (cleanup h)))
      with (in_flight (cleanup h)).
    lia.
  - destruct (sockets h !! i) as [[[] u]|] eqn:Hi; try done.
    change (in_flight (onopen (set_readyState i OPEN h))) with (in_flight h).
    change (live (onopen (set_readyState i OPEN h)))
      with (filter (λ s, readyState s ≠ CLOSED)
              (alter (λ s, mkSocket OPEN (sock_url s)) i (sockets h))).
    rewrite filter_alter_length_eq; [done|].
    intros s Hs. rewrite Hi in Hs. injection Hs as <-. done.
  - by destruct (sockets h !! i) as [[[] u]|].
  - by destruct (sockets h !! i) as [[[] u]|].
  - assert (∀ u s, sockets h !! i = Some s → readyState s ≠ CLOSED →
              (length (live (onclose u code (set_readyState i CLOSED h)))
               + length (in_flight (onclose u code (set_readyState i CLOSED h)))
               ≤ 1)%nat) as Hclose.
    { intros u s Hs Hlive.
      assert (S (length (live (set_readyState i CLOSED h))) = length (live h))
        as Hdrop.
      { unfold live, set_readyState. cbn.
        apply (filter_alter_length_drop _ _ i s); [done|done|].
        cbn. intros Hc. by apply Hc. }
      unfold onclose.
      destruct (_ && _); cbn.
      - unfold live, in_flight in *. cbn in *.
        rewrite filter_app, length_app. cbn. destruct (decide _); cbn; lia.
      - unfold live, in_flight in *. cbn in *. lia. }
    destruct (sockets h !! i) as [[[] u]|] eqn:Hi; try done;
      by apply (Hclose _ _ eq_refl).
  - destruct (timers h !! t) as [[d [] u]|] eqn:Ht; try done.
    set (h1 := set_timers _ h).
    assert (S (length (in_flight h1)) = length (in_flight h)) as Hdrop.
    { unfold in_flight, h1, set_timers. cbn.
      by apply (filter_alter_length_drop _ _ t (mkTimer d true u)). }
    assert (live h1 = live h) as Hlive by done.
    unfold reconnect.
    pose proof (connect_live u (set_reconnectAttempts (S (reconnectAttempts h1)) h1))
      as Hc.
    change (live (set_reconnectAttempts (S (reconnectAttempts h1)) h1))
      with (live h1) in Hc.
    unfold in_flight at 1. rewrite connect_timers.
    change (filter (λ tm, pending tm = true)
              (timers (set_reconnectAttempts (S (reconnectAttempts h1)) h1)))
      with (in_flight h1).
    rewrite Hlive in Hc. lia.
Qed.

Lemma cleanup_frozen h :
  live h = [] → in_flight h = [] →
  sockets (cleanup h) = sockets h ∧ timers (cleanup h) = timers h.
Proof.
  intros Hlive Hfl. unfold cleanup.
  assert (∀ t, clearTimeout t h = h) as Hclear.
  { intros t. unfold clearTimeout, set_timers.
    rewrite alter_id_on; [by destruct h|].
    intros tm Htm. pose proof (in_flight_nil_fired h t tm Hfl Htm).
    destruct tm; cbn in *; by subst. }
  assert (∀ i, WebSocket_close i h = h) as Hclose.
  { intros i. unfold WebSocket_close, set_sockets.
    rewrite alter_id_on; [by destruct h|].
    intros s Hs. by rewrite (live_nil_closed h i s Hlive Hs). }
  destruct (reconnectTimeout h); rewrite ?Hclear;
    destruct (ws h); by rewrite ?Hclose.
Qed.

Lemma dispatch_frozen ev h :
  is_EvEffect ev = false → live h = [] → in_flight h = [] →
  sockets (dispatch WT ev h) = sockets h ∧ timers (dispatch WT ev h) = timers h.
Proof.
  intros Hev Hlive Hfl.
  destruct ev as [u| |i|i m|i|i code|t]; try discriminate; cbn [dispatch].
  - destruct (effect_active h); [|done]. by apply cleanup_frozen.
  - destruct (sockets h !! i) as [s|] eqn:Hi; [|done].
    pose proof (live_nil_closed h i s Hlive Hi). destruct s; cbn in *; by subst.
  - destruct (sockets h !! i) as [s|] eqn:Hi; [|done].
    pose proof (live_nil_closed h i s Hlive Hi). destruct s; cbn in *; by subst.
  - destruct (sockets h !! i) as [s|] eqn:Hi; [|done].
    pose proof (live_nil_closed h i s Hlive Hi). destruct s; cbn in *; by subst.
  - destruct (sockets h !! i) as [s|] eqn:Hi; [|done].
    pose proof (live_nil_closed h i s Hlive Hi). destruct s; cbn in *; by subst.
  - destruct (timers h !! t) as [tm|] eqn:Ht; [|done].
    pose proof (in_flight_nil_fired h t tm Hfl Ht). destruct tm; cbn in *; by subst.
Qed.

Lemma run_frozen evs h :
  one_session evs → live h = [] → in_flight h = [] →
  timers (run WT evs h) = timers h ∧ in_flight (run WT evs h) = [].
Proof.
  intros Hevs. revert h. induction Hevs as [|ev evs Hev _ IH]; intros h Hlive Hfl.
  - done.
  - rewrite run_cons.
    destruct (dispatch_frozen ev h Hev Hlive Hfl) as [Hs Ht].
    destruct (IH (dispatch WT ev h)) as [IHt IHf].
    + unfold live. by rewrite Hs.
    + unfold in_flight. by rewrite Ht.
    + by rewrite IHt, Ht.
Qed.

Lemma run_one_channel evs h :
  one_session evs → one_channel h → one_channel (run WT evs h).
Proof.
  intros Hevs. revert h. induction Hevs as [|ev evs Hev _ IH]; intros h Hinv.
  - done.
  - rewrite run_cons. apply IH. by apply dispatch_one_channel.
Qed.

Lemma onclose_retry u code h :
  code ≠ 1000 → (reconnectAttempts h < maxReconnectAttempts)%nat →
  onclose u code h
  = setTimeout u (2 ^ Z.of_nat (reconnectAttempts h) * 1000) (setIsConnected false h).
Proof.
  intros Hc Ha. unfold onclose.
  rewrite (bool_decide_eq_true_2 _ Hc).
  change (reconnectAttempts (setIsConnected false h)) with (reconnectAttempts h).
  by rewrite (bool_decide_eq_true_2 _ Ha).
Qed.

Lemma onclose_stop u code h :
  code = 1000 ∨ (maxReconnectAttempts ≤ reconnectAttempts h)%nat →
  onclose u code h = setIsConnected false h.
Proof.
  intros Hstop. unfold onclose.
  change (reconnectAttempts (setIsConnected false h)) with (reconnectAttempts h).
  destruct Hstop as [->|Ha].
  - by rewrite bool_decide_eq_false_2 by (intros Hc; by apply Hc).
  - rewrite (bool_decide_eq_false_2 (reconnectAttempts h < _)%nat) by lia.
    by rewrite andb_false_r.
Qed.

Lemma effect_init_after_losses u :
  WT u = false → u ≠ "" →
  dispatch WT (EvEffect u) Hook_init = after_losses u 0.
Proof.
  intros Hok Hu. cbn. unfold effect, connect.
  by rewrite (bool_decide_eq_false_2 _ Hu), Hok.
Qed.

Lemma loss_and_retry u k code :
  WT u = false → code ≠ 1000 → (k < maxReconnectAttempts)%nat →
  run WT [EvClose k code; EvTimeout k] (after_losses u k) = after_losses u (S k).
Proof.
  intros Hok Hc Hk. unfold maxReconnectAttempts in Hk.
  destruct k as [|[|[|[|[|k]]]]]; try lia; clear Hk;
    unfold run; cbn [foldl]; cbn -[onclose reconnect];
    (rewrite onclose_retry; [|done|cbn; unfold maxReconnectAttempts; lia]);
    cbn; unfold reconnect, connect; cbn; by rewrite Hok.
Qed.

Lemma first_loss_after_open u code :
  WT u = false → code ≠ 1000 →
  run WT [EvClose 0 code; EvTimeout 0] (dispatch WT (EvOpen 0) (after_losses u 0))
  = after_losses u 1.
Proof.
  intros Hok Hc. unfold run; cbn [foldl]; cbn -[onclose reconnect].
  rewrite onclose_retry; [|done|cbn; unfold maxReconnectAttempts; lia].
  cbn. unfold reconnect, connect. cbn. by rewrite Hok.
Qed.

Lemma last_loss u code :
  let h := run WT [EvClose 5 code; EvTimeout 5] (after_losses u 5) in
  live h = [] ∧ in_flight h = [] ∧ scheduled h = backoff.
Proof.
  unfold run; cbn [foldl]; cbn -[onclose].
  rewrite onclose_stop by (right; cbn; unfold maxReconnectAttempts; lia).
  by vm_compute.
Qed.

Lemma losses_one_session k codes : one_session (losses k codes).
Proof.
  revert k. induction codes as [|code codes IH]; intros k; cbn.
  - constructor.
  - repeat constructor. apply IH.
Qed.

Lemma scheduled_after_losses u k :
  (k ≤ maxReconnectAttempts)%nat → scheduled (after_losses u k) = take k backoff.
Proof.
  unfold maxReconnectAttempts. intros Hk.
  destruct k as [|[|[|[|[|[|k]]]]]]; try lia; reflexivity.
Qed.

Lemma run_losses u codes k :
  WT u = false → (k ≤ maxReconnectAttempts)%nat →
  Forall (λ code, code ≠ 1000) codes →
  scheduled (run WT (losses k codes) (after_losses u k))
  = take (k + length codes) backoff.
Proof.
  intros Hok Hk Hcodes. revert k Hk.
  induction Hcodes as [|code codes Hcode _ IH]; intros k Hk.
  - cbn. rewrite Nat.add_0_r. by apply scheduled_after_losses.
  - cbn [losses length].
    change (run WT (EvClose k code :: EvTimeout k :: losses (S k) codes)
              (after_losses u k))
      with (run WT (losses (S k) codes)
              (run WT [EvClose k code; EvTimeout k] (after_losses u k))).
    destruct (decide (k < maxReconnectAttempts)%nat) as [Hlt|Hge].
    + rewrite loss_and_retry by done. rewrite IH by lia.
      f_equal. lia.
    + assert (k = 5%nat) as -> by (unfold maxReconnectAttempts in *; lia).
      destruct (last_loss u code) as (Hlive & Hfl & Hsched).
      destruct (run_frozen (losses 6 codes) _ (losses_one_session 6 codes)
                  Hlive Hfl) as [Htimers _].
      unfold scheduled at 1. rewrite Htimers.
      fold (scheduled (run WT [EvClose 5 code; EvTimeout 5] (after_losses u 5))).
      rewrite Hsched. by rewrite take_ge by (cbn; lia).
Qed.

Lemma live_lookup h i s :
  sockets h !! i = Some s → readyState s ≠ CLOSED → (1 ≤ length (live h))%nat.
Proof.
  intros Hi Hs.
  assert (s ∈ live h) as Hin.
  { apply list_elem_of_filter. split; [done|]. by eapply list_elem_of_lookup_2. }
  destruct (live h); [by apply elem_of_nil in Hin | cbn; lia].
Qed.

Lemma session_one_channel u evs :
  one_session evs → one_channel (run WT (EvEffect u :: evs) Hook_init).
Proof.
  intros Hevs. rewrite run_cons. apply run_one_channel; [done|].
  apply effect_init_one_channel.
Qed.

Lemma dispatch_manual_close h i s :
  one_channel h → sockets h !! i = Some s → readyState s ≠ CLOSED →
  let h' := dispatch WT (EvClose i 1000) h in
  timers h' = timers h ∧ live h' = [] ∧ in_flight h' = [].
Proof.
  unfold one_channel. intros Hinv Hi Hs.
  pose proof (live_lookup h i s Hi Hs) as Hlive.
  assert (S (length (live (set_readyState i CLOSED h))) = length (live h))
    as Hdrop.
  { unfold live, set_readyState. cbn.
    apply (filter_alter_length_drop _ _ i s); [done|done|].
    cbn. intros Hc. by apply Hc. }
  assert (dispatch WT (EvClose i 1000) h
          = setIsConnected false (set_readyState i CLOSED h)) as ->.
  { cbn [dispatch]. rewrite Hi.
    destruct s as [[] su]; cbn in Hs; try done; by rewrite onclose_stop by by left. }
  change (live (setIsConnected false (set_readyState i CLOSED h)))
    with (live (set_readyState i CLOSED h)).
  change (in_flight (setIsConnected false (set_readyState i CLOSED h)))
    with (in_flight h).
  repeat split.
  - apply length_zero_iff_nil. lia.
  - apply length_zero_iff_nil. lia.
Qed.
End connection.

(** The first connection and its retries: after the effect has connected to
    [u], whether or not that first connection was established, consecutive
    losses with codes other than 1000, each followed by its retry, schedule
    the delays of [backoff], one per loss, and nothing from the sixth on. *)
Lemma first_connect_backoff
    (WebSocket_throws : string → bool) (u : string) (established : bool)
    (codes : list Z) :
  WebSocket_throws u = false → u ≠ "" →
  Forall (λ code, code ≠ 1000) codes →
  scheduled (run WebSocket_throws
               (EvEffect u :: (if established then [EvOpen 0] else [])
                ++ losses 0 codes) Hook_init)
  = take (length codes) [1000; 2000; 4000; 8000; 16000].
Proof.
  intros Hok Hu Hcodes. rewrite run_cons, effect_init_after_losses by done.
  destruct established; cbn [app].
  - destruct Hcodes as [|code codes Hcode Hcodes]; [reflexivity|].
    cbn [losses length].
    change (run WebSocket_throws
              (EvOpen 0 :: EvClose 0 code :: EvTimeout 0 :: losses 1 codes)
              (after_losses u 0))
      with (run WebSocket_throws (losses 1 codes)
              (run WebSocket_throws [EvClose 0 code; EvTimeout 0]
                 (dispatch WebSocket_throws (EvOpen 0) (after_losses u 0)))).
    rewrite first_loss_after_open by done.
    rewrite run_losses; [done|done| |done]. unfold maxReconnectAttempts. lia.
  - rewrite run_losses; [done|done| |done]. unfold maxReconnectAttempts. lia.
Qed.







Example backoff_after_reestablishment :
  let ok := λ _ : string, false in
  let later := run ok [EvEffect "ws://host/ws"; EvOpen 0; EvClose 0 1006;
                       EvTimeout 0; EvClose 1 1006; EvTimeout 1] Hook_init in
  reconnectAttempts later = 2%nat
  ∧ scheduled (run ok (losses_from 2 2 3 [1006; 1006; 1001; 1006; 1011; 1006; 1006])
                 (dispatch ok (EvOpen 2) later))
    = [1000; 2000; 1000; 2000; 4000; 8000; 16000].
Proof. split; reflexivity. Qed.


(** C7: within one session (the effect has run once, and does not run
    again), once a socket that was not yet closed is lost with code 1000, no
    retry is scheduled by that loss nor by anything that happens afterwards,
    and none is in flight. *)
Theorem manual_close_stops_retries
    (WebSocket_throws : string → bool) (u : string)
    (pre post : list Event) (i : nat) (s : Socket) :
  one_session pre → one_session post →
  sockets (run WebSocket_throws (EvEffect u :: pre) Hook_init) !! i = Some s →
  readyState s ≠ CLOSED →
  scheduled (run WebSocket_throws
               (EvEffect u :: pre ++ EvClose i 1000 :: post) Hook_init)
    = scheduled (run WebSocket_throws (EvEffect u :: pre) Hook_init)
  ∧ in_flight (run WebSocket_throws
                 (EvEffect u :: pre ++ EvClose i 1000 :: post) Hook_init) = [].
Proof.
  intros Hpre Hpost Hi Hs.
  change (EvEffect u :: pre ++ EvClose i 1000 :: post)
    with ((EvEffect u :: pre) ++ EvClose i 1000 :: post).
  rewrite run_app, run_cons.
  set (h := run WebSocket_throws (EvEffect u :: pre) Hook_init) in *.
  destruct (dispatch_manual_close WebSocket_throws h i s
              (session_one_channel _ u pre Hpre) Hi Hs) as (Htimers & Hlive & Hfl).
  destruct (run_frozen WebSocket_throws post _ Hpost Hlive Hfl) as [Hrun Hnone].
  split; [|done]. unfold scheduled. by rewrite Hrun, Htimers.
Qed.

Lemma manual_close_stops_retries_witness :
  let ok := λ _ : string, false in
  let pre := [EvClose 0 1006; EvTimeout 0; EvOpen 1;
              EvMessage 1 (frame_malformed "ping"); EvUnmount] in
  let post := [EvTimeout 0; EvTimeout 1; EvError 1; EvClose 1 1006; EvUnmount] in
  scheduled (run ok (EvEffect "ws://host/ws" :: pre ++ EvClose 1 1000 :: post) Hook_init)
    = [1000]
  ∧ in_flight (run ok (EvEffect "ws://host/ws" :: pre ++ EvClose 1 1000 :: post)
                 Hook_init) = [].
Proof.
  intros ok pre post.
  apply (manual_close_stops_retries ok "ws://host/ws" pre post 1
           (mkSocket CLOSING "ws://host/ws")).
  - repeat constructor.
  - repeat constructor.
  - reflexivity.
  - discriminate.
Defined.

(** C8, as the code has it: when a connecting socket opens, the status
    becomes connected, the error is cleared and the attempt counter is reset
    to 0; the timeouts are left as they are.  Within one session (the effect
    has run once) no retry is in flight at that moment. *)
Theorem establishment_resets_attempts
    (WebSocket_throws : string → bool) (h : Hook) (i : nat) (s : Socket) :
  sockets h !! i = Some s → readyState s = CONNECTING →
  let h' := dispatch WebSocket_throws (EvOpen i) h in
  isConnected h' = true ∧ error h' = None ∧ reconnectAttempts h' = 0%nat
  ∧ timers h' = timers h
  ∧ (∀ u pre, one_session pre →
       h = run WebSocket_throws (EvEffect u :: pre) Hook_init →
       in_flight h' = []).
Proof.
  intros Hi Hs h'.
  assert (h' = onopen (set_readyState i OPEN h)) as ->.
  { unfold h'. cbn [dispatch]. rewrite Hi. destruct s as [r su]. cbn in Hs. by subst r. }
  repeat split.
  intros u pre Hpre ->.
  pose proof (session_one_channel WebSocket_throws u pre Hpre) as Hinv.
  unfold one_channel in Hinv.
  assert (readyState s ≠ CLOSED) as Hlive by (by rewrite Hs).
  pose proof (live_lookup _ i s Hi Hlive).
  change (in_flight (onopen (set_readyState i OPEN
            (run WebSocket_throws (EvEffect u :: pre) Hook_init))))
    with (in_flight (run WebSocket_throws (EvEffect u :: pre) Hook_init)).
  apply length_zero_iff_nil. lia.
Qed.

Lemma establishment_resets_attempts_witness :
  let ok := λ _ : string, false in
  let h := run ok [EvEffect "ws://host/ws"; EvClose 0 1006; EvTimeout 0] Hook_init in
  let h' := dispatch ok (EvOpen 1) h in
  reconnectAttempts h = 1%nat
  ∧ isConnected h' = true ∧ error h' = None ∧ reconnectAttempts h' = 0%nat
  ∧ timers h' = timers h ∧ in_flight h' = [].
Proof.
  intros ok h h'.
  destruct (establishment_resets_attempts ok h 1 (mkSocket CONNECTING "ws://host/ws")
              eq_refl eq_refl) as (Hc & He & Ha & Ht & Hf).
  split; [reflexivity|].
  split; [exact Hc|]. split; [exact He|]. split; [exact Ha|]. split; [exact Ht|].
  apply (Hf "ws://host/ws" [EvClose 0 1006; EvTimeout 0]);
    [repeat constructor | reflexivity].
Defined.

(** C8 fails as stated: the effect runs for ws://a/ws and, the URL having
    changed while that socket is still connecting, again for ws://b/ws; the
    first socket, closed by the cleanup before it was established, reports
    its loss with code 1006 and a retry is scheduled; then the second socket
    opens.  The retry is still in flight after the establishment, and when
    it fires it replaces the open socket by a new one for ws://a/ws. *)
Lemma stale_retry_survives_establishment :
  let ok := λ _ : string, false in
  let h := run ok [EvEffect "ws://a/ws"; EvEffect "ws://b/ws"; EvClose 0 1006]
               Hook_init in
  let h' := dispatch ok (EvOpen 1) h in
  sockets h !! 1%nat = Some (mkSocket CONNECTING "ws://b/ws")
  ∧ isConnected h' = true
  ∧ in_flight h' = [mkTimer 1000 true "ws://a/ws"]
  ∧ sockets (dispatch ok (EvTimeout 0) h')
    = [mkSocket CLOSED "ws://a/ws"; mkSocket OPEN "ws://b/ws";
       mkSocket CONNECTING "ws://a/ws"]
  ∧ ws (dispatch ok (EvTimeout 0) h') = Some 2%nat.
Proof. repeat split. Qed.

(* ===================================================================== *)
(** ** More on the reconciler (App.js:30-92)                               *)
(* ===================================================================== *)

Lemma total_or_idem t prev : total_or t (total_or t prev) = total_or t prev.
Proof. unfold total_or. destruct t as [n|]; [|done]. by case_bool_decide. Qed.


(** What one event can do to the tracked job: nothing, or new counters with
    the same id and type, the status kept or set to completed. *)
Lemma handle_job_cases ev st :
  currentJob (handle ev st) = currentJob st
  ∨ ∃ job p c f t status',
      currentJob st = Some job
      ∧ event_job_id ev = Some (Job.id job)
      ∧ currentJob (handle ev st)
        = Some (Job.mk (Job.id job) (Job.type job) status' p c f
                       (total_or t (Job.total job)))
      ∧ (status' = Job.status job ∨ status' = "completed").
Proof.
  destruct st as [[job|] results loading ts cs]; destruct ev as
    [jid p c f t|jid success key d|jid c f t|jid e|ty]; cbn;
    try (by left).
  - case_bool_decide as Hid; [|by left]. right.
    exists job, p, c, f, t, (Job.status job). subst jid. cbn. auto.
  - destruct success, d; by left.
  - case_bool_decide as Hid; [|by left]. right.
    exists job, 100, c, f, t, "completed". subst jid. cbn. auto.
  - destruct success, d; by left.
Qed.

(** X1: receiving an event twice is harmless for the job snapshot: applying
    any event a second time leaves the tracked job as the first application
    left it, and so does running the effect again on the same messages. *)
Theorem duplicate_event_keeps_job (ev : Data) (messages : list Frame) (st : Home) :
  currentJob (handle ev (handle ev st)) = currentJob (handle ev st)
  ∧ currentJob (handleMessages messages (handleMessages messages st))
    = currentJob (handleMessages messages st).
Proof.
  assert (∀ ev st, currentJob (handle ev (handle ev st)) = currentJob (handle ev st))
    as Hdup.
  { clear. intros ev st.
    destruct st as [[job|] results loading ts cs]; destruct ev as
      [jid p c f t|jid success key d|jid c f t|jid e|ty]; cbn; try done.
    - case_bool_decide as Hid; cbn; [|by rewrite bool_decide_eq_false_2].
      rewrite bool_decide_eq_true_2 by done. cbn. by rewrite total_or_idem.
    - by destruct success, d.
    - case_bool_decide as Hid; cbn; [|by rewrite bool_decide_eq_false_2].
      rewrite bool_decide_eq_true_2 by done. cbn. by rewrite total_or_idem.
    - by destruct success, d. }
  split; [apply Hdup|].
  unfold handleMessages. destruct (last messages) as [m|]; [|done].
  destruct (JSON_parse m) as [data|]; [apply Hdup | done].
Qed.

Lemma handle_all_snoc evs ev st :
  handle_all (evs ++ [ev]) st = handle ev (handle_all evs st).
Proof. unfold handle_all. by rewrite foldl_app. Qed.

(** X2: the reducer never creates, drops or swaps the tracked job: after any
    series of events the job has the id and type it had, and no job is
    tracked if none was. *)
Theorem reducer_keeps_job_identity (evs : list Data) (st : Home) :
  Job.id <$> currentJob (handle_all evs st) = Job.id <$> currentJob st
  ∧ Job.type <$> currentJob (handle_all evs st) = Job.type <$> currentJob st.
Proof.
  induction evs as [|ev evs IH] using rev_ind; [done|].
  rewrite handle_all_snoc.
  destruct (handle_job_cases ev (handle_all evs st))
    as [->|(job & p & c & f & t & s' & Hjob & _ & -> & _)]; [done|].
  rewrite Hjob in IH. cbn in *. done.
Qed.

(** X3: events that carry another job's id (or none) never alter the tracked
    job's snapshot, however many of them arrive. *)
Theorem other_jobs_events_keep_job (evs : list Data) (st : Home) (job : Job.t) :
  currentJob st = Some job →
  Forall (λ ev, event_job_id ev ≠ Some (Job.id job)) evs →
  currentJob (handle_all evs st) = Some job.
Proof.
  intros Hjob Hevs. revert st Hjob.
  induction Hevs as [|ev evs Hev Hevs IH]; intros st Hjob; [done|].
  change (handle_all (ev :: evs) st) with (handle_all evs (handle ev st)).
  apply IH.
  destruct (handle_job_cases ev st)
    as [->|(job' & p & c & f & t & s' & Hjob' & Hid & _)]; [done|].
  rewrite Hjob in Hjob'. injection Hjob' as <-. done.
Qed.

Lemma other_jobs_events_keep_job_witness :
  let job := Job.mk "J_new" "bulk" "started" 10 1 0 8 in
  let st := mkHome (Some job) [] true [] [] in
  currentJob (handle_all [progress_update "J_old" 90 9 0 (Some 10);
                          job_complete "J_old" 10 0 (Some 10);
                          job_error "J_old" "late"; other_type "ping"] st)
  = Some job.
Proof.
  intros job st.
  apply (other_jobs_events_keep_job _ st job eq_refl).
  repeat constructor; discriminate.
Defined.



Lemma handle_all_status evs st job :
  currentJob st = Some job →
  ∃ job', currentJob (handle_all evs st) = Some job'
    ∧ (Job.status job' = Job.status job ∨ Job.status job' = "completed")
    ∧ (Job.status job = "completed" → Job.status job' = "completed").
Proof.
  intros Hjob. induction evs as [|ev evs IH] using rev_ind.
  { exists job. auto. }
  destruct IH as (job1 & Hjob1 & Hs1 & Hc1). rewrite handle_all_snoc.
  destruct (handle_job_cases ev (handle_all evs st))
    as [->|(job2 & p & c & f & t & s' & Hjob2 & _ & -> & Hs')].
  { exists job1. auto. }
  rewrite Hjob1 in Hjob2. injection Hjob2 as <-.
  eexists. split; [done|]. cbn.
  destruct Hs' as [->| ->]; [|by auto]. split; [done|]. auto.
Qed.

(** X5: the status only ever moves to completed: after any series of events
    the job has the status it had or is completed, and a completed job
    stays completed. *)
Theorem status_only_moves_to_completed (evs : list Data) (st : Home) (job : Job.t) :
  currentJob st = Some job →
  ∃ job', currentJob (handle_all evs st) = Some job'
    ∧ (Job.status job' = Job.status job ∨ Job.status job' = "completed")
    ∧ (Job.status job = "completed" → Job.status job' = "completed").
Proof. apply handle_all_status. Qed.

Lemma status_only_moves_to_completed_witness :
  let job := Job.mk "J1" "bulk" "completed" 100 5 1 6 in
  let st := mkHome (Some job) [] false [] [] in
  ∃ job', currentJob (handle_all [progress_update "J1" 40 2 0 None;
                                   job_error "J1" "late"] st) = Some job'
    ∧ (Job.status job' = "completed" ∨ Job.status job' = "completed")
    ∧ ("completed" = "completed" → Job.status job' = "completed").
Proof.
  intros job st. exact (status_only_moves_to_completed _ st job eq_refl).
Defined.

(** X6: for a job as the submission handlers create it (status started),
    whatever messages follow, the tracker's status text is the starting one
    or the completed one; the reducer never makes it show Failed or In
    Progress. *)
Theorem tracker_text_of_submitted_job (evs : list Data) (st : Home) (job : Job.t) :
  currentJob st = Some job → Job.status job = "started" →
  ∃ job', currentJob (handle_all evs st) = Some job'
    ∧ (getStatusText job' = "Starting..." ∨ getStatusText job' = "Completed").
Proof.
  intros Hjob Hstarted.
  destruct (handle_all_status evs st job Hjob) as (job' & Hjob' & [Hs|Hs] & _).
  - exists job'. split; [done|]. left. unfold getStatusText.
    rewrite Hs, Hstarted. reflexivity.
  - exists job'. split; [done|]. right. unfold getStatusText.
    rewrite Hs. reflexivity.
Qed.

Lemma tracker_text_of_submitted_job_witness :
  let job := Job.mk "J1" "single" "started" 0 0 0 1 in
  let st := mkHome (Some job) [] true [] [] in
  ∃ job', currentJob (handle_all [progress_update "J1" 50 0 0 None;
                                   job_error "J1" "timeout"] st) = Some job'
    ∧ (getStatusText job' = "Starting..." ∨ getStatusText job' = "Completed").
Proof.
  intros job st.
  exact (tracker_text_of_submitted_job _ st job eq_refl eq_refl).
Defined.

Lemma handle_same_view ev st1 st2 :
  same_view st1 st2 → same_view (handle ev st1) (handle ev st2).
Proof.
  destruct st1 as [j1 r1 l1 t1 c1], st2 as [j2 r2 l2 t2 c2].
  intros (Hj & Hr & Hl & Ht). cbn in *. subst j2 r2 l2 t2.
  destruct ev as [jid p c f t|jid success key d|jid c f t|jid e|ty];
    unfold same_view; cbn; try done.
  - by destruct (is_current jid j1).
  - by destruct success, d.
  - by destruct (is_current jid j1).
Qed.

Lemma apply_frame_same_view m st1 st2 :
  same_view st1 st2 → same_view (apply_frame st1 m) (apply_frame st2 m).
Proof.
  intros Hv. destruct m as [data|raw]; cbn.
  - by apply handle_same_view.
  - exact Hv.
Qed.

Lemma apply_frame_malformed m st : ¬ parses m → same_view (apply_frame st m) st.
Proof.
  intros Hm. destruct m as [data|raw]; cbn.
  - destruct Hm. by eexists.
  - done.
Qed.

(** X7: a frame that does not parse is dropped and the frames after it are
    processed as if it had not been there: applying a stream of frames and
    applying only those that parse give the same job, results, loading
    flag and toasts (the console alone tells them apart). *)
Theorem malformed_frames_are_dropped (ms : list Frame) (st : Home) :
  same_view (foldl apply_frame st ms) (foldl apply_frame st (filter parses ms)).
Proof.
  assert (∀ st1 st2, same_view st1 st2 →
            same_view (foldl apply_frame st1 ms)
                      (foldl apply_frame st2 (filter parses ms))) as Hgen.
  { induction ms as [|m ms IH]; intros st1 st2 Hv; [done|].
    rewrite filter_cons. destruct (decide (parses m)) as [Hm|Hm]; cbn [foldl].
    - apply IH. by apply apply_frame_same_view.
    - apply IH. destruct (apply_frame_malformed m st1 Hm) as (? & ? & ? & ?).
      destruct Hv as (? & ? & ? & ?). unfold same_view. repeat split; congruence. }
  apply Hgen. done.
Qed.

(* ===================================================================== *)
(** ** More on the result list (App.js:52-61)                              *)
(* ===================================================================== *)

Lemma upsert_keys key d prev x :
  x ∈ url <$> upsert key d prev → x = url d ∨ x ∈ url <$> prev.
Proof.
  induction prev as [|r prev IH].
  - rewrite upsert_nil. cbn. intros Hx. apply list_elem_of_singleton in Hx. by left.
  - rewrite upsert_cons. destruct (decide (url r = key)) as [Hk|Hk]; cbn.
    + intros Hx. apply elem_of_cons in Hx as [->|Hx]; [by left|].
      right. by apply elem_of_cons; right.
    + intros Hx. apply elem_of_cons in Hx as [->|Hx].
      * right. by apply elem_of_cons; left.
      * destruct (IH Hx) as [->|Hin]; [by left|]. right. by apply elem_of_cons; right.
Qed.

Lemma upsert_NoDup key d prev :
  url d = key → NoDup (url <$> prev) → NoDup (url <$> upsert key d prev).
Proof.
  intros Hd. induction prev as [|r prev IH]; intros Hnd.
  - rewrite upsert_nil. cbn. apply NoDup_singleton.
  - rewrite upsert_cons. cbn in Hnd. apply NoDup_cons in Hnd as [Hr Hnd].
    destruct (decide (url r = key)) as [Hk|Hk]; cbn.
    + apply NoDup_cons. split; [|done]. by rewrite Hd, <- Hk.
    + apply NoDup_cons. split; [|by apply IH].
      intros Hin. apply upsert_keys in Hin as [Heq|Hin]; [congruence|done].
Qed.

(** X8: the result list grows by at most one entry per event: an upsert
    keeps the length when an entry with the key is there, and adds one entry
    at the end when none is. *)
Theorem upsert_length (key : option string) (d : Payload) (prev : list Payload) :
  length (upsert key d prev)
  = if decide (Exists (λ r, url r = key) prev) then length prev
    else S (length prev).
Proof.
  induction prev as [|r prev IH].
  - rewrite upsert_nil. rewrite decide_False; [done|]. by intros ?%Exists_nil.
  - rewrite upsert_cons. destruct (decide (url r = key)) as [Hk|Hk].
    + rewrite decide_True by (by left). done.
    + cbn. rewrite IH. destruct (decide (Exists _ prev)) as [He|He].
      * rewrite decide_True by (by right). done.
      * rewrite decide_False; [done|]. by intros [?|?]%Exists_cons.
Qed.

(** X9: an upsert under one key leaves the entries of every other key as
    they are, in their order, when the payload carries that key as its
    [url]. *)
Theorem upsert_keeps_other_keys (key : option string) (d : Payload) (prev : list Payload) :
  url d = key →
  filter (λ r, url r ≠ key) (upsert key d prev) = filter (λ r, url r ≠ key) prev.
Proof.
  intros Hd. induction prev as [|r prev IH].
  - rewrite upsert_nil. rewrite filter_cons, decide_False; [done|].
    intros Hne. by apply Hne.
  - rewrite upsert_cons. destruct (decide (url r = key)) as [Hk|Hk].
    + rewrite !filter_cons.
      rewrite (decide_False (P := url d ≠ key)); [|intros Hne; by apply Hne].
      rewrite (decide_False (P := url r ≠ key)); [done|intros Hne; by apply Hne].
    + rewrite !filter_cons. destruct (decide (url r ≠ key)); [|done].
      by rewrite IH.
Qed.

Lemma upsert_keeps_other_keys_witness :
  let a := mkPayload (Some "a.com") [("email_address", "v1@a.com")] in
  let b := mkPayload (Some "b.com") [] in
  let a2 := mkPayload (Some "a.com") [("email_address", "v2@a.com")] in
  filter (λ r, url r ≠ Some "a.com") (upsert (Some "a.com") a2 [b; a; b])
  = filter (λ r, url r ≠ Some "a.com") [b; a; b].
Proof.
  intros a b a2. exact (upsert_keeps_other_keys (Some "a.com") a2 [b; a; b] eq_refl).
Defined.

(** X10: at most one result per key: when every successful [url_complete]
    carries its [url] in its payload, a result list without two entries of
    one [url] stays so under any series of events; from the empty list it
    always is. *)
Theorem results_have_unique_keys (evs : list Data) (st : Home) :
  Forall well_keyed evs →
  NoDup (url <$> jobResults st) →
  NoDup (url <$> jobResults (handle_all evs st)).
Proof.
  intros Hevs. revert st. induction Hevs as [|ev evs Hev Hevs IH]; intros st Hnd;
    [done|].
  change (handle_all (ev :: evs) st) with (handle_all evs (handle ev st)).
  apply IH. clear IH Hevs.
  destruct ev as [jid p c f t|jid success key d|jid c f t|jid e|ty]; cbn.
  - by destruct (is_current jid (currentJob st)).
  - destruct success, d as [d|]; try done. cbn. by apply upsert_NoDup.
  - by destruct (is_current jid (currentJob st)).
  - done.
  - done.
Qed.

Lemma results_have_unique_keys_witness :
  let a := mkPayload (Some "a.com") [("email_address", "v1@a.com")] in
  let a2 := mkPayload (Some "a.com") [("email_address", "v2@a.com")] in
  let b := mkPayload (Some "b.com") [] in
  NoDup (url <$> jobResults (handle_all
           [url_complete "J1" true (Some "a.com") (Some a);
            url_complete "J1" true (Some "b.com") (Some b);
            progress_update "J1" 66 2 0 (Some 3);
            url_complete "J1" false (Some "c.com") None;
            url_complete "J1" true (Some "a.com") (Some a2)] Home_init)).
Proof.
  intros a a2 b. apply results_have_unique_keys.
  - repeat constructor.
  - cbn. apply NoDup_nil_2.
Defined.

(* ===================================================================== *)
(** ** More on the submission handlers (App.js:94-168)                     *)
(* ===================================================================== *)

Lemma pollJobStatus_unbound run :
  call_ident App_scope "pollJobStatus" run = throw (ReferenceError "pollJobStatus").
Proof. reflexivity. Qed.

Ltac unfold_handlers :=
  unfold handleSingleUrlSubmit, handleBulkUpload, single_try, bulk_try,
    mbind, Stmt_bind, bind, try_catch, do, axios_post, ret;
  cbn; rewrite ?pollJobStatus_unbound; unfold throw; cbn.

(** X11: a submission never throws into its caller, whatever the request
    does and whatever state it starts from: both handlers complete, with the
    result list emptied and the loading flag cleared. *)
Theorem submission_always_completes
    (pollJobStatus : string → Stmt unit) (r : Response) (st : Home) :
  (handleSingleUrlSubmit pollJobStatus r st).2 = Normal ()
  ∧ jobResults (handleSingleUrlSubmit pollJobStatus r st).1 = []
  ∧ isLoading (handleSingleUrlSubmit pollJobStatus r st).1 = false
  ∧ (handleBulkUpload pollJobStatus r st).2 = Normal ()
  ∧ jobResults (handleBulkUpload pollJobStatus r st).1 = []
  ∧ isLoading (handleBulkUpload pollJobStatus r st).1 = false.
Proof.
  destruct r as [|status job_id message]; [by repeat split|].
  destruct (decide (status = "started")) as [->|Hs].
  - by repeat split.
  - unfold_handlers. rewrite !(bool_decide_eq_false_2 _ Hs). by repeat split.
Qed.

(** X12: a submission that is rejected, or answered with a status other
    than started, keeps the job that was tracked and raises one error
    toast: the fixed text for a rejection, the server's message otherwise. *)
Theorem refused_submission_keeps_job
    (pollJobStatus : string → Stmt unit) (status job_id message : string) (st : Home) :
  status ≠ "started" →
  let refused := resolved status job_id message in
  currentJob (handleSingleUrlSubmit pollJobStatus refused st).1 = currentJob st
  ∧ toasts (handleSingleUrlSubmit pollJobStatus refused st).1
    = toasts st ++ [toast_error message]
  ∧ currentJob (handleBulkUpload pollJobStatus refused st).1 = currentJob st
  ∧ toasts (handleBulkUpload pollJobStatus refused st).1
    = toasts st ++ [toast_error message]
  ∧ currentJob (handleSingleUrlSubmit pollJobStatus rejected st).1 = currentJob st
  ∧ toasts (handleSingleUrlSubmit pollJobStatus rejected st).1
    = toasts st ++ [toast_error "Failed to start scraping"]
  ∧ currentJob (handleBulkUpload pollJobStatus rejected st).1 = currentJob st
  ∧ toasts (handleBulkUpload pollJobStatus rejected st).1
    = toasts st ++ [toast_error "Failed to start bulk scraping"].
Proof.
  intros Hs refused. subst refused. unfold_handlers.
  rewrite !(bool_decide_eq_false_2 _ Hs). by repeat split.
Qed.

Lemma refused_submission_keeps_job_witness :
  let job := Job.mk "J1" "single" "completed" 100 1 0 1 in
  let st := mkHome (Some job) [] false [] [] in
  let poll := λ _ : string, mret () in
  currentJob (handleBulkUpload poll (resolved "error" "" "No valid URLs") st).1
    = Some job
  ∧ toasts (handleBulkUpload poll (resolved "error" "" "No valid URLs") st).1
    = [toast_error "No valid URLs"].
Proof.
  intros job st poll.
  destruct (refused_submission_keeps_job poll "error" "" "No valid URLs" st)
    as (_ & _ & Hjob & Htoasts & _); [discriminate|].
  split; [exact Hjob | exact Htoasts].
Defined.

(** X13: a started submission replaces the tracked job whatever was tracked
    before: the new job has the response's id, status started and zero
    counters ([total] 1 for a single URL, 0 for a bulk upload), and a
    [progress_update] for that id is then applied to it. *)
Theorem started_submission_replaces_job
    (pollJobStatus : string → Stmt unit) (job_id message : string) (st : Home)
    (p c f : Z) (t : option Z) :
  let started := resolved "started" job_id message in
  currentJob (handleSingleUrlSubmit pollJobStatus started st).1
    = Some (Job.mk job_id "single" "started" 0 0 0 1)
  ∧ currentJob (handleBulkUpload pollJobStatus started st).1
    = Some (Job.mk job_id "bulk" "started" 0 0 0 0)
  ∧ currentJob (handle (progress_update job_id p c f t)
                       (handleSingleUrlSubmit pollJobStatus started st).1)
    = Some (Job.mk job_id "single" "started" p c f (total_or t 1))
  ∧ currentJob (handle (progress_update job_id p c f t)
                       (handleBulkUpload pollJobStatus started st).1)
    = Some (Job.mk job_id "bulk" "started" p c f (total_or t 0)).
Proof.
  intros started.
  set (st1 := (handleSingleUrlSubmit pollJobStatus started st).1).
  set (st2 := (handleBulkUpload pollJobStatus started st).1).
  assert (currentJob st1 = Some (Job.mk job_id "single" "started" 0 0 0 1)) as H1
    by reflexivity.
  assert (currentJob st2 = Some (Job.mk job_id "bulk" "started" 0 0 0 0)) as H2
    by reflexivity.
  split; [exact H1|]. split; [exact H2|].
  destruct st1 as [cur1 ? ? ? ?], st2 as [cur2 ? ? ? ?]. cbn in H1, H2.
  subst cur1 cur2.
  split.
  - exact (f_equal currentJob
             (handle_progress_update_current
                (Job.mk job_id "single" "started" 0 0 0 1) p c f t _ _ _ _)).
  - exact (f_equal currentJob
             (handle_progress_update_current
                (Job.mk job_id "bulk" "started" 0 0 0 0) p c f t _ _ _ _)).
Qed.

(* ===================================================================== *)
(** ** More on the connection (hooks/useWebSocket.js)                      *)
(* ===================================================================== *)

Ltac unfold_hook :=
  unfold effect, cleanup, reconnect, connect, onopen, onmessage, onclose, onerror,
    clearTimeout, WebSocket_close, set_readyState, setTimeout, new_WebSocket,
    setMessages, setIsConnected, setError, set_reconnectAttempts, set_sockets,
    set_timers, set_effect_active in *.

Ltac case_handlers :=
  repeat match goal with
    | |- context [match ?x with _ => _ end] => destruct x eqn:?
    end.

Section hook_invariants.
Variable WT : string → bool.

Lemma dispatch_sockets_frame ev h :
  (ws (dispatch WT ev h) = ws h
   ∧ length (sockets (dispatch WT ev h)) = length (sockets h))
  ∨ (ws (dispatch WT ev h) = Some (length (sockets h))
     ∧ length (sockets (dispatch WT ev h)) = S (length (sockets h))).
Proof.
  destruct ev; cbn [dispatch]; unfold_hook; case_handlers; cbn;
    rewrite ?length_app, ?length_alter; cbn;
    first [ left; split; [done | lia] | right; split; [done | lia] ].
Qed.

Lemma dispatch_ws_is_last ev h : ws_is_last h → ws_is_last (dispatch WT ev h).
Proof.
  unfold ws_is_last. intros Hlast.
  destruct (dispatch_sockets_frame ev h) as [[-> Hlen]|[-> Hlen]]; [|done].
  destruct (ws h); [by rewrite Hlen|].
  apply length_zero_iff_nil. rewrite Hlen, Hlast. done.
Qed.

Lemma dispatch_messages_prefix ev h :
  messages h `prefix_of` messages (dispatch WT ev h).
Proof.
  destruct ev; cbn [dispatch]; unfold_hook; case_handlers; cbn;
    try reflexivity; by apply prefix_app_r.
Qed.

Lemma onclose_delays u code h :
  Forall (λ tm, delay tm ∈ backoff) (timers h) →
  Forall (λ tm, delay tm ∈ backoff) (timers (onclose u code h)).
Proof.
  intros Hd. unfold onclose.
  destruct (bool_decide (code ≠ 1000)); [|done]. cbn [andb].
  case_bool_decide as Ha; [|done].
  unfold setTimeout. cbn in *. apply Forall_app. split; [done|].
  constructor; [|done]. cbn. unfold maxReconnectAttempts in Ha.
  destruct (reconnectAttempts h) as [|[|[|[|[|n]]]]]; try lia;
    apply list_elem_of_In; cbn; auto 10.
Qed.

Lemma dispatch_delays ev h :
  Forall (λ tm, delay tm ∈ backoff) (timers h) →
  Forall (λ tm, delay tm ∈ backoff) (timers (dispatch WT ev h)).
Proof.
  intros Hd.
  assert (∀ h', Forall (λ tm, delay tm ∈ backoff) (timers h') →
                Forall (λ tm, delay tm ∈ backoff) (timers (cleanup h'))) as Hcleanup.
  { intros h' Hd'. unfold_hook. case_handlers; cbn; try done;
      by apply Forall_alter. }
  destruct ev as [u| |i|i m|i|i code|t]; cbn [dispatch].
  - assert (∀ h', timers (effect WT u h') = timers h') as ->.
    { intros h'. unfold_hook. by case_handlers. }
    destruct (effect_active h); [by apply Hcleanup | done].
  - destruct (effect_active h); [|done]. by apply Hcleanup.
  - by case_handlers.
  - by case_handlers.
  - by case_handlers.
  - destruct (sockets h !! i) as [[[] u]|]; try done; by apply onclose_delays.
  - destruct (timers h !! t) as [[d [] u]|]; try done.
    unfold reconnect. rewrite connect_timers. cbn. by apply Forall_alter.
Qed.

Lemma cleanup_refs h : ws (cleanup h) = ws h ∧ reconnectTimeout (cleanup h) = reconnectTimeout h.
Proof. unfold_hook. by case_handlers. Qed.

Lemma cleanup_sockets h :
  sockets (cleanup h)
  = match ws h with
    | Some i => alter (λ s, match readyState s with
                            | CONNECTING | OPEN => mkSocket CLOSING (sock_url s)
                            | _ => s
                            end) i (sockets h)
    | None => sockets h
    end.
Proof. unfold cleanup. destruct (reconnectTimeout h); cbn; by destruct (ws h). Qed.

Lemma cleanup_timers h :
  timers (cleanup h)
  = match reconnectTimeout h with
    | Some t => alter (λ tm, mkTimer (delay tm) false (timer_url tm)) t (timers h)
    | None => timers h
    end.
Proof. unfold cleanup. destruct (reconnectTimeout h); cbn; by destruct (ws h). Qed.

Lemma cleanup_lookup_socket h j s' :
  sockets (cleanup h) !! j = Some s' → readyState s' ≠ CLOSED →
  ∃ s, sockets h !! j = Some s ∧ readyState s ≠ CLOSED.
Proof.
  rewrite cleanup_sockets.
  destruct (ws h) as [i|]; [|by eauto].
  rewrite list_lookup_alter. case_decide as Hij; [subst j|by eauto].
  destruct (sockets h !! i) as [s|] eqn:Hs; [|done]. cbn.
  intros [= <-] Hlive. exists s. split; [done|].
  intros Hc. rewrite Hc in Hlive. by apply Hlive.
Qed.

Lemma cleanup_lookup_timer h t tm :
  timers (cleanup h) !! t = Some tm → pending tm = true →
  timers h !! t = Some tm ∧ reconnectTimeout h ≠ Some t.
Proof.
  rewrite cleanup_timers.
  destruct (reconnectTimeout h) as [t0|]; [|done].
  rewrite list_lookup_alter. case_decide as Ht; [subst t0|].
  - destruct (timers h !! t); [|done]. cbn. intros [= <-]. done.
  - intros Htm _. split; [done|]. congruence.
Qed.

Lemma effect_init_refs_current u : refs_current (dispatch WT (EvEffect u) Hook_init).
Proof.
  cbn. unfold effect, connect.
  destruct (bool_decide (u = "")), (WT u); cbn; split; cbn; try done.
  intros [|i] s; cbn; [by intros [= <-]|done].
Qed.

Lemma dispatch_refs_current ev h :
  is_EvEffect ev = false → one_channel h → refs_current h →
  refs_current (dispatch WT ev h).
Proof.
  unfold one_channel. intros Hev Hone [Hsock Htimer].
  destruct ev as [u| |i|i m|i|i code|t]; try discriminate; cbn [dispatch].
  - destruct (effect_active h); [|done].
    destruct (cleanup_refs h) as [Hws Hrt]. split.
    + intros j s' Hj Hs'. cbn in Hj |- *. rewrite Hws.
      destruct (cleanup_lookup_socket h j s' Hj Hs') as (s & Hs & Hlive). eauto.
    + intros t tm Ht Htm. cbn in Ht |- *. rewrite Hrt.
      destruct (cleanup_lookup_timer h t tm Ht Htm) as [Horig _]. eauto.
  - destruct (sockets h !! i) as [[[] u]|] eqn:Hi; try done. split; [|done].
    intros j s'. cbn. rewrite list_lookup_alter. case_decide as Hij.
    + subst j. intros _ _. by apply (Hsock i (mkSocket CONNECTING u)).
    + apply Hsock.
  - by destruct (sockets h !! i) as [[[] u]|].
  - by destruct (sockets h !! i) as [[[] u]|].
  - assert (∀ u s, sockets h !! i = Some s → readyState s ≠ CLOSED →
              refs_current (onclose u code (set_readyState i CLOSED h))) as Hclose.
    { intros u s Hi Hs.
      pose proof (live_lookup h i s Hi Hs) as Hlive.
      assert (in_flight h = []) as Hfl by (apply length_zero_iff_nil; lia).
      assert (∀ j s', alter (λ s, mkSocket CLOSED (sock_url s)) i (sockets h) !! j
                        = Some s' → readyState s' ≠ CLOSED → ws h = Some j) as Hs'.
      { intros j s'. rewrite list_lookup_alter. case_decide as Hij; [subst j|by eauto].
        rewrite Hi. cbn. intros [= <-] Hc. by destruct Hc. }
      unfold onclose. destruct (_ && _); split; cbn; try done.
      intros t tm Ht Htm. apply lookup_snoc_Some in Ht as [[_ Ht]|[-> _]]; [|done].
      by rewrite (in_flight_nil_fired h t tm Hfl Ht) in Htm. }
    destruct (sockets h !! i) as [[[] u]|] eqn:Hi; try done;
      by apply (Hclose _ _ eq_refl).
  - destruct (timers h !! t) as [[d [] u]|] eqn:Ht; try done.
    assert (1 ≤ length (in_flight h))%nat as Hfl.
    { assert (mkTimer d true u ∈ in_flight h) as Hin.
      { apply list_elem_of_filter. split; [done|]. by eapply list_elem_of_lookup_2. }
      destruct (in_flight h); [by apply elem_of_nil in Hin | cbn; lia]. }
    assert (live h = []) as Hlive by (apply length_zero_iff_nil; lia).
    assert (∀ t' tm, alter (λ tm, mkTimer (delay tm) false (timer_url tm)) t (timers h)
                       !! t' = Some tm → pending tm = true →
                     reconnectTimeout h = Some t') as Ht'.
    { intros t' tm. rewrite list_lookup_alter. case_decide as Htt; [subst t'|by eauto].
      rewrite Ht. cbn. by intros [= <-]. }
    unfold reconnect, connect. destruct (WT u); split; cbn; try done.
    intros j s Hj Hs. apply lookup_snoc_Some in Hj as [[_ Hj]|[-> _]]; [|done].
    by destruct (Hs (live_nil_closed h j s Hlive Hj)).
Qed.

Lemma session_refs_current u evs :
  one_session evs → refs_current (run WT (EvEffect u :: evs) Hook_init).
Proof.
  intros Hevs. rewrite run_cons.
  assert (one_channel (dispatch WT (EvEffect u) Hook_init)
          ∧ refs_current (dispatch WT (EvEffect u) Hook_init)) as Hinit.
  { split; [apply effect_init_one_channel | apply effect_init_refs_current]. }
  revert Hinit. generalize (dispatch WT (EvEffect u) Hook_init).
  induction Hevs as [|ev evs Hev _ IH]; intros h [Hone Hrefs]; [done|].
  rewrite run_cons. apply IH. split.
  - by apply dispatch_one_channel.
  - by apply dispatch_refs_current.
Qed.

Lemma in_flight_lookup h t tm :
  timers h !! t = Some tm → pending tm = true → (1 ≤ length (in_flight h))%nat.
Proof.
  intros Ht Htm.
  assert (tm ∈ in_flight h) as Hin.
  { apply list_elem_of_filter. split; [done|]. by eapply list_elem_of_lookup_2. }
  destruct (in_flight h); [by apply elem_of_nil in Hin | cbn; lia].
Qed.

Lemma fire_in_flight h t d u :
  timers h !! t = Some (mkTimer d true u) →
  S (length (filter (λ tm, pending tm = true)
               (alter (λ tm, mkTimer (delay tm) false (timer_url tm)) t (timers h))))
  = length (in_flight h).
Proof.
  intros Ht. by apply (filter_alter_length_drop _ _ t (mkTimer d true u)).
Qed.

Lemma effect_init_attempts_bounded u :
  attempts_bounded (dispatch WT (EvEffect u) Hook_init).
Proof.
  cbn. unfold effect, connect, attempts_bounded, maxReconnectAttempts.
  destruct (bool_decide (u = "")), (WT u); cbn; split; lia.
Qed.

Lemma dispatch_attempts_bounded ev h :
  is_EvEffect ev = false → one_channel h → attempts_bounded h →
  attempts_bounded (dispatch WT ev h).
Proof.
  unfold one_channel, attempts_bounded. intros Hev Hone [Hle Hlt].
  destruct ev as [u| |i|i m|i|i code|t]; try discriminate; cbn [dispatch].
  - destruct (effect_active h); [|done].
    change (reconnectAttempts (set_effect_active false (cleanup h)))
      with (reconnectAttempts (cleanup h)).
    change (in_flight (set_effect_active false (cleanup h)))
      with (in_flight (cleanup h)).
    assert (reconnectAttempts (cleanup h) = reconnectAttempts h) as ->.
    { unfold_hook. by case_handlers. }
    split; [done|]. intros Hfl. apply Hlt. intros Hnil.
    pose proof (cleanup_in_flight h) as Hlen. rewrite Hnil in Hlen.
    destruct (in_flight (cleanup h)); [done|cbn in Hlen; lia].
  - destruct (sockets h !! i) as [[[] u]|]; try done.
    cbn. unfold maxReconnectAttempts. split; lia.
  - by destruct (sockets h !! i) as [[[] u]|].
  - by destruct (sockets h !! i) as [[[] u]|].
  - assert (∀ u, let h' := onclose u code (set_readyState i CLOSED h) in
              (reconnectAttempts h' ≤ maxReconnectAttempts)%nat
              ∧ (in_flight h' ≠ [] → (reconnectAttempts h' < maxReconnectAttempts)%nat))
      as Hclose.
    { intros u. unfold onclose.
      destruct (bool_decide (code ≠ 1000)); cbn [andb]; [|done].
      case_bool_decide as Ha; [|done]. cbn in *. done. }
    destruct (sockets h !! i) as [[[] u]|]; try done; apply Hclose.
  - destruct (timers h !! t) as [[d [] u]|] eqn:Ht; try done.
    pose proof (in_flight_lookup h t _ Ht eq_refl) as Hfl.
    pose proof (fire_in_flight h t d u Ht) as Hdrop.
    assert ((reconnectAttempts h < maxReconnectAttempts)%nat) as Hattempts.
    { apply Hlt. intros Hnil. rewrite Hnil in Hfl. cbn in Hfl. lia. }
    unfold reconnect. split.
    + unfold connect. destruct (WT u); cbn; lia.
    + unfold in_flight at 1. rewrite connect_timers. cbn. intros Hne.
      destruct (filter _ _); [done|]. cbn in Hdrop. lia.
Qed.

Lemma dispatch_effect_active ev h :
  is_socket_event ev = true →
  effect_active (dispatch WT ev h) = effect_active h.
Proof.
  intros Hev. destruct ev; try discriminate; cbn [dispatch];
    unfold_hook; by case_handlers.
Qed.

Lemma mounted_one_session evs : mounted_session evs → one_session evs.
Proof.
  intros Hevs. eapply Forall_impl; [exact Hevs|].
  intros ev Hev. by destruct ev.
Qed.

Lemma session_attempts_bounded u evs :
  one_session evs → attempts_bounded (run WT (EvEffect u :: evs) Hook_init).
Proof.
  intros Hevs. rewrite run_cons.
  assert (one_channel (dispatch WT (EvEffect u) Hook_init)
          ∧ attempts_bounded (dispatch WT (EvEffect u) Hook_init)) as Hinit.
  { split; [apply effect_init_one_channel | apply effect_init_attempts_bounded]. }
  revert Hinit. generalize (dispatch WT (EvEffect u) Hook_init).
  induction Hevs as [|ev evs Hev _ IH]; intros h [Hone Hb]; [done|].
  rewrite run_cons. apply IH. split.
  - by apply dispatch_one_channel.
  - by apply dispatch_attempts_bounded.
Qed.

Lemma session_effect_active u evs :
  mounted_session evs →
  effect_active (run WT (EvEffect u :: evs) Hook_init) = true.
Proof.
  intros Hevs. rewrite run_cons.
  assert (effect_active (dispatch WT (EvEffect u) Hook_init) = true) as Hinit
    by reflexivity.
  revert Hinit. generalize (dispatch WT (EvEffect u) Hook_init).
  induction Hevs as [|ev evs Hev _ IH]; intros h Ha; [done|].
  rewrite run_cons. apply IH. by rewrite dispatch_effect_active.
Qed.

Lemma run_frozen_sockets evs h :
  one_session evs → live h = [] → in_flight h = [] →
  sockets (run WT evs h) = sockets h.
Proof.
  intros Hevs. revert h. induction Hevs as [|ev evs Hev _ IH]; intros h Hlive Hfl;
    [done|].
  rewrite run_cons.
  destruct (dispatch_frozen WT ev h Hev Hlive Hfl) as [Hs Ht].
  rewrite IH; [done| |].
  - unfold live. by rewrite Hs.
  - unfold in_flight. by rewrite Ht.
Qed.
End hook_invariants.

(** X14: [ws.current] is always the socket created last, whatever happens
    to the hook (effect runs, cleanups, socket events, timeouts), and [null]
    only while no socket was ever created; so [sendMessage] only ever sends
    on the newest socket. *)
Theorem ws_current_is_latest_socket
    (WebSocket_throws : string → bool) (evs : list Event) (message : string) :
  ws_is_last (run WebSocket_throws evs Hook_init)
  ∧ match sendMessage message (run WebSocket_throws evs Hook_init) with
    | sent i _ => S i = length (sockets (run WebSocket_throws evs Hook_init))
    | warned => True
    end.
Proof.
  assert (ws_is_last (run WebSocket_throws evs Hook_init)) as Hlast.
  { assert (ws_is_last Hook_init) as Hinit by reflexivity.
    revert Hinit. generalize Hook_init.
    induction evs as [|ev evs IH]; intros h Hh; [done|].
    rewrite run_cons. apply IH. by apply dispatch_ws_is_last. }
  split; [done|]. unfold sendMessage. unfold ws_is_last in Hlast.
  destruct (ws _) as [i|]; [|done].
  by destruct (sockets _ !! i) as [[[] u]|].
Qed.

(** X15: the list of received messages only grows at its end: no event of
    the hook removes, reorders or rewrites a message already received. *)
Theorem messages_append_only
    (WebSocket_throws : string → bool) (evs : list Event) (h : Hook) :
  messages h `prefix_of` messages (run WebSocket_throws evs h).
Proof.
  revert h. induction evs as [|ev evs IH]; intros h; [done|].
  rewrite run_cons. etrans; [apply (dispatch_messages_prefix WebSocket_throws ev)|].
  apply IH.
Qed.

(** X16: every retry the hook ever schedules, in any run whatsoever, waits
    1, 2, 4, 8 or 16 seconds: never less, never more, never anything else. *)
Theorem retry_delays_within_backoff
    (WebSocket_throws : string → bool) (evs : list Event) :
  Forall (λ d, d ∈ [1000; 2000; 4000; 8000; 16000])
         (scheduled (run WebSocket_throws evs Hook_init)).
Proof.
  unfold scheduled. apply Forall_fmap.
  assert (Forall (λ tm, delay tm ∈ backoff) (timers Hook_init)) as Hinit
    by constructor.
  revert Hinit. generalize Hook_init.
  induction evs as [|ev evs IH]; intros h Hh; [done|].
  rewrite run_cons. apply IH. by apply dispatch_delays.
Qed.

(** X17: within one session the hook never has two things going: at most
    one socket is not closed, at most one retry is in flight, and never a
    socket and a retry together. *)
Theorem session_single_channel
    (WebSocket_throws : string → bool) (u : string) (evs : list Event) :
  one_session evs →
  (length (live (run WebSocket_throws (EvEffect u :: evs) Hook_init))
   + length (in_flight (run WebSocket_throws (EvEffect u :: evs) Hook_init))
   ≤ 1)%nat.
Proof. apply session_one_channel. Qed.

Lemma session_single_channel_witness :
  let h := run (λ _, false)
             (EvEffect "ws://host/ws"
              :: [EvOpen 0; EvClose 0 1006; EvClose 0 1006; EvTimeout 0;
                  EvTimeout 0; EvError 1]) Hook_init in
  (length (live h) + length (in_flight h) ≤ 1)%nat.
Proof.
  apply (session_single_channel (λ _, false) "ws://host/ws").
  repeat constructor.
Defined.

(** X18: within one session the attempt counter never exceeds the ceiling
    of 5. *)
Theorem attempts_never_exceed_ceiling
    (WebSocket_throws : string → bool) (u : string) (evs : list Event) :
  one_session evs →
  (reconnectAttempts (run WebSocket_throws (EvEffect u :: evs) Hook_init) ≤ 5)%nat.
Proof. intros Hevs. by destruct (session_attempts_bounded WebSocket_throws u evs Hevs). Qed.

Lemma attempts_never_exceed_ceiling_witness :
  let h := run (λ _, false)
             (EvEffect "ws://host/ws"
              :: losses 0 [1006; 1006; 1006; 1006; 1006; 1006; 1006])
             Hook_init in
  (reconnectAttempts h ≤ 5)%nat.
Proof.
  apply (attempts_never_exceed_ceiling (λ _, false) "ws://host/ws").
  repeat constructor.
Defined.

Lemma filter_nil_Forall {A} (P : A → Prop) `{!∀ x, Decision (P x)} (l : list A) :
  (∀ i x, l !! i = Some x → ¬ P x) → filter P l = [].
Proof.
  intros Hl. destruct (filter P l) as [|x l'] eqn:Hf; [done|].
  assert (x ∈ filter P l) as Hin by (rewrite Hf; left).
  apply list_elem_of_filter in Hin as [Hx Hin].
  apply list_elem_of_lookup in Hin as [i Hi]. by destruct (Hl i x Hi).
Qed.

(** X19: unmounting a mounted component leaves nothing going: right after
    the cleanup no retry is in flight and every socket is closing or
    closed. *)
Theorem unmount_cancels_retry_and_closes
    (WebSocket_throws : string → bool) (u : string) (evs : list Event) :
  mounted_session evs →
  let h := run WebSocket_throws (EvEffect u :: evs ++ [EvUnmount]) Hook_init in
  in_flight h = []
  ∧ Forall (λ s, readyState s = CLOSING ∨ readyState s = CLOSED) (sockets h).
Proof.
  intros Hevs h. subst h.
  change (EvEffect u :: evs ++ [EvUnmount]) with ((EvEffect u :: evs) ++ [EvUnmount]).
  rewrite run_app.
  pose proof (session_refs_current WebSocket_throws u evs (mounted_one_session evs Hevs))
    as [Hsock Htimer].
  pose proof (session_effect_active WebSocket_throws u evs Hevs) as Hactive.
  set (h := run WebSocket_throws (EvEffect u :: evs) Hook_init) in *.
  cbn [run foldl dispatch]. rewrite Hactive.
  change (in_flight (set_effect_active false (cleanup h))) with (in_flight (cleanup h)).
  change (sockets (set_effect_active false (cleanup h))) with (sockets (cleanup h)).
  split.
  - apply filter_nil_Forall. intros t tm Ht Htm.
    destruct (cleanup_lookup_timer h t tm Ht Htm) as [Horig Hne].
    by destruct (Hne (Htimer t tm Horig Htm)).
  - apply Forall_lookup. intros j s' Hj. rewrite cleanup_sockets in Hj.
    assert (∀ s, sockets h !! j = Some s → ws h ≠ Some j → readyState s = CLOSED)
      as Hclosed.
    { intros s Hs Hws. destruct (decide (readyState s = CLOSED)) as [|Hlive]; [done|].
      by destruct (Hws (Hsock j s Hs Hlive)). }
    destruct (ws h) as [i|]; [|right; by apply Hclosed].
    rewrite list_lookup_alter in Hj. case_decide as Hij.
    + subst j. destruct (sockets h !! i) as [[[] su]|]; cbn in Hj; simplify_eq;
        cbn; auto.
    + right. apply Hclosed; [done|]. congruence.
Qed.

Lemma unmount_cancels_retry_and_closes_witness :
  let h := run (λ _, false)
             (EvEffect "ws://host/ws" :: [EvOpen 0; EvClose 0 1006] ++ [EvUnmount])
             Hook_init in
  in_flight h = []
  ∧ Forall (λ s, readyState s = CLOSING ∨ readyState s = CLOSED) (sockets h).
Proof.
  apply (unmount_cancels_retry_and_closes (λ _, false) "ws://host/ws"
           [EvOpen 0; EvClose 0 1006]).
  repeat constructor.
Defined.

(** X21: a URL that is empty, or that [new WebSocket] refuses, is never
    tried again: within the session no socket is ever created and no retry
    is ever scheduled. *)
Theorem refused_url_is_never_retried
    (WebSocket_throws : string → bool) (u : string) (evs : list Event) :
  u = "" ∨ WebSocket_throws u = true → one_session evs →
  sockets (run WebSocket_throws (EvEffect u :: evs) Hook_init) = []
  ∧ scheduled (run WebSocket_throws (EvEffect u :: evs) Hook_init) = [].
Proof.
  intros Hu Hevs. rewrite run_cons.
  set (h := dispatch WebSocket_throws (EvEffect u) Hook_init).
  assert (sockets h = [] ∧ timers h = []) as [Hs Ht].
  { unfold h. cbn. unfold effect, connect. destruct Hu as [-> | Hthrows]; [done|]. rewrite Hthrows.
    by case_bool_decide. }
  assert (live h = []) as Hlive by (unfold live; by rewrite Hs).
  assert (in_flight h = []) as Hfl by (unfold in_flight; by rewrite Ht).
  split.
  - by rewrite run_frozen_sockets.
  - destruct (run_frozen WebSocket_throws evs h Hevs Hlive Hfl) as [Htimers _].
    unfold scheduled. by rewrite Htimers, Ht.
Qed.

Lemma refused_url_is_never_retried_witness :
  let h := run (λ u, bool_decide (u = "host/ws"))
             (EvEffect "host/ws" :: [EvOpen 0; EvClose 0 1006; EvTimeout 0; EvUnmount])
             Hook_init in
  sockets h = [] ∧ scheduled h = [].
Proof.
  apply (refused_url_is_never_retried (λ u, bool_decide (u = "host/ws")) "host/ws").
  - right. reflexivity.
  - repeat constructor.
Defined.

(* ===================================================================== *)
(** ** The results table (components/BulkUpload.js:265-296, 571-600)       *)
(* ===================================================================== *)

Lemma paginatedResults_S q l :
  paginatedResults (S q) l = take itemsPerPage (drop (q * itemsPerPage) l).
Proof.
  unfold paginatedResults, slice, startIndex.
  replace (S q - 1)%nat with q; [|lia].
  by rewrite Nat.add_sub'.
Qed.

Lemma chunks_join (k : nat) (l : list Payload) :
  (length l ≤ k * itemsPerPage)%nat →
  mjoin ((λ q, take itemsPerPage (drop (q * itemsPerPage) l)) <$> seq 0 k) = l.
Proof.
  revert l. induction k as [|k IH]; intros l Hlen.
  - destruct l; [done|cbn in Hlen; lia].
  - cbn [seq fmap list_fmap mjoin list_join]. rewrite <- fmap_S_seq, <- list_fmap_compose.
    rewrite (list_fmap_ext _
               (λ q, take itemsPerPage (drop (q * itemsPerPage) (drop itemsPerPage l)))).
    + rewrite IH; [apply take_drop|]. rewrite length_drop. lia.
    + intros i q _. cbn. rewrite drop_drop. do 2 f_equal; lia.
Qed.

Lemma totalPages_bounds (l : list Payload) :
  (length l ≤ totalPages l * itemsPerPage
   ∧ totalPages l * itemsPerPage < length l + itemsPerPage)%nat.
Proof.
  unfold totalPages, itemsPerPage.
  pose proof (Nat.div_mod_eq (length l + (10 - 1)) 10) as Hdiv.
  pose proof (Nat.mod_upper_bound (length l + (10 - 1)) 10) as Hmod.
  lia.
Qed.

(** X22: the pages partition the filtered results: pages 1 to [totalPages],
    one after the other, are exactly the filtered results, in order, with
    nothing lost and nothing repeated; and no page holds more than 10
    rows. *)
Theorem pages_partition_results (filteredResults : list Payload) (currentPage : nat) :
  mjoin ((λ p, paginatedResults p filteredResults)
           <$> seq 1 (totalPages filteredResults)) = filteredResults
  ∧ (length (paginatedResults currentPage filteredResults) ≤ 10)%nat.
Proof.
  split.
  - rewrite <- fmap_S_seq, <- list_fmap_compose.
    rewrite (list_fmap_ext _
               (λ q, take itemsPerPage (drop (q * itemsPerPage) filteredResults))).
    + apply chunks_join. apply totalPages_bounds.
    + intros i q _. apply paginatedResults_S.
  - unfold paginatedResults, slice. rewrite length_take. unfold itemsPerPage. lia.
Qed.

(** X23: a page shows rows exactly when its number is at most [totalPages]:
    pages 1 to [totalPages] are never empty, and a page number left beyond
    [totalPages] (the filter narrowed while a later page was open) shows an
    empty table. *)
Theorem page_nonempty_iff_in_range (filteredResults : list Payload) (currentPage : nat) :
  (1 ≤ currentPage)%nat →
  paginatedResults currentPage filteredResults ≠ []
  ↔ (currentPage ≤ totalPages filteredResults)%nat.
Proof.
  intros Hp. destruct currentPage as [|q]; [lia|]. rewrite paginatedResults_S.
  pose proof (totalPages_bounds filteredResults) as [Hlo Hhi].
  unfold itemsPerPage in *.
  assert (take 10 (drop (q * 10) filteredResults) ≠ []
          ↔ (q * 10 < length filteredResults)%nat) as ->.
  { rewrite <- length_zero_iff_nil, length_take, length_drop. lia. }
  lia.
Qed.

Lemma page_nonempty_iff_in_range_witness :
  let rows := replicate 25 (mkPayload (Some "a.com") []) in
  (paginatedResults 3 rows ≠ [] ↔ (3 ≤ totalPages rows)%nat)
  ∧ totalPages rows = 3%nat ∧ length (paginatedResults 3 rows) = 5%nat.
Proof.
  intros rows.
  split; [|split; reflexivity].
  apply (page_nonempty_iff_in_range rows 3). lia.
Defined.

(** X24: the Previous and Next buttons keep the page number between 1 and
    [totalPages] once it is there. *)
Theorem page_buttons_stay_in_range (filteredResults : list Payload) (currentPage : nat) :
  (1 ≤ currentPage ≤ totalPages filteredResults)%nat →
  (1 ≤ previousPage currentPage ≤ totalPages filteredResults)%nat
  ∧ (1 ≤ nextPage filteredResults currentPage ≤ totalPages filteredResults)%nat.
Proof. unfold previousPage, nextPage. lia. Qed.

Lemma page_buttons_stay_in_range_witness :
  let rows := replicate 25 (mkPayload (Some "a.com") []) in
  (1 ≤ previousPage 1 ≤ totalPages rows)%nat
  ∧ (1 ≤ nextPage rows 1 ≤ totalPages rows)%nat.
Proof.
  intros rows. apply (page_buttons_stay_in_range rows 1).
  split; [lia|]. cbn. lia.
Defined.

(** X25: whatever [openUrl] opens starts with http, and opening that
    address again opens the same address. *)
Theorem openUrl_adds_scheme_once (u : option string) (target : string) :
  openUrl u = Some target →
  String.prefix "http" target = true ∧ openUrl (Some target) = Some target.
Proof.
  unfold openUrl. destruct u as [u|]; [|done].
  case_bool_decide as Hu; [done|].
  destruct (String.prefix "http" u) eqn:Hp; intros [= <-].
  - split; [done|]. rewrite bool_decide_eq_false_2 by done. by rewrite Hp.
  - split; [done|]. rewrite bool_decide_eq_false_2 by done. done.
Qed.

Lemma openUrl_adds_scheme_once_witness :
  String.prefix "http" "https://example.com" = true
  ∧ openUrl (Some "https://example.com") = Some "https://example.com".
Proof.
  exact (openUrl_adds_scheme_once (Some "example.com") "https://example.com" eq_refl).
Defined.
